(** * Jimeng Lip-Sync Preprocessor: the media analysis and encoding engine

    A shallow embedding of the audio and video routines of the React
    components [AudioProcessor] and [VideoProcessor]:

    - [bufferToWav], [sliceAudio], [generateSegments]  (segment slicer)
    - [autoDetectSplits]                               (split finder)
    - [addSplitPoint], [adjustSplitPoint], [removeSplitPoint]
    - the waveform drawing effect                      (peak decimation)
    - [findGoodFrame]                                  (brightness prober)

    Numbers.  A JavaScript number that holds a time, an energy or a
    brightness is modelled as an exact rational ([Q]): the arithmetic of
    the source is reproduced without the rounding of IEEE doubles.  Sample
    indices, frame counts and byte values are integers ([Z]) with the
    wrap-around of the typed-array and DataView stores written out.  A
    Float32Array cell is a [sample]: a rational or NaN.  Equality of
    rationals is [Qeq], so statements about split times are up to [==]. *)

From Stdlib Require Import ZArith QArith Qround Qabs Qminmax.
From Stdlib Require Import List Bool Lia Lqa String.
From Stdlib Require Import Sorting.Sorted.
Local Open Scope string_scope.
Local Open Scope list_scope.
Import ListNotations.

Local Open Scope Z_scope.

(* ================================================================== *)
(** ** JavaScript numeric helpers *)

Module JS.

(** A Float32Array cell, or the result of an arithmetic expression that
    may be NaN ([undefined] converts to NaN). *)
Inductive sample : Type :=
| Fin (v : Q)
| NaN.

(** [Math.floor] on a finite number. *)
Definition floor (x : Q) : Z := Qfloor x.

(** [Math.ceil] on a finite number. *)
Definition ceil (x : Q) : Z := Qceiling x.

(** Truncation toward zero, the first step of [ToInt32]. *)
Definition trunc (x : Q) : Z :=
  if Qlt_le_dec x 0 then Qceiling x else Qfloor x.

(** Two's complement reading of the low [w] bits. *)
Definition wrapSigned (w : Z) (n : Z) : Z :=
  let m := n mod 2 ^ w in
  if m <? 2 ^ (w - 1) then m else m - 2 ^ w.

(** [x | 0] on a finite number: [ToInt32]. *)
Definition toInt32 (x : Q) : Z := wrapSigned 32 (trunc x).

(** [Math.max(lo, Math.min(hi, x))]. *)
Definition clamp (lo hi x : Q) : Q := Qmax lo (Qmin hi x).

(** [x < m] for a number [m]; a comparison with NaN is false. *)
Definition ltNum (x : sample) (m : Q) : bool :=
  match x with
  | Fin v => if Qlt_le_dec v m then true else false
  | NaN => false
  end.

(** [arr[i]] on a typed array: [undefined] (here NaN) out of range. *)
Definition get (data : list sample) (i : Z) : sample :=
  if i <? 0 then NaN else nth (Z.to_nat i) data NaN.

End JS.

Import JS.

(* ================================================================== *)
(** ** Data model *)

(** The Web Audio [AudioBuffer] as the code reads it: [sampleRate],
    [length] (frames per channel) and the channel arrays
    ([numberOfChannels] is their count). *)
Record AudioBuffer : Type := mkAudioBuffer {
  sampleRate : Z;
  length : Z;
  channelData : list (list sample)
}.

Definition numberOfChannels (b : AudioBuffer) : Z :=
  Z.of_nat (List.length (channelData b)).

(** [buffer.getChannelData(c)]. *)
Definition getChannelData (b : AudioBuffer) (c : nat) : list sample :=
  nth c (channelData b) [].

(** The invariant every AudioBuffer of the platform satisfies. *)
Definition wfBuffer (b : AudioBuffer) : Prop :=
  0 <= length b /\
  Forall (fun ch => Z.of_nat (List.length ch) = length b) (channelData b).

(** Samples that are numbers, and samples inside the nominal range. *)
Definition isNumber (x : sample) : Prop :=
  match x with Fin _ => True | NaN => False end.

Definition inUnitRange (x : sample) : Prop :=
  match x with Fin v => (-(1) <= v /\ v <= 1)%Q | NaN => False end.

(* ================================================================== *)
(** ** WAV serialisation: [bufferToWav] *)

Module Wav.

(** Little-endian stores of a DataView; the value is first reduced
    modulo the width of the store. *)
Definition byteAt (n : Z) (k : Z) : Z := (n / 256 ^ k) mod 256.

Definition setUint32 (data : Z) : list Z :=
  let m := data mod 2 ^ 32 in [byteAt m 0; byteAt m 1; byteAt m 2; byteAt m 3].

Definition setUint16 (data : Z) : list Z :=
  let m := data mod 2 ^ 16 in [byteAt m 0; byteAt m 1].

Definition setInt16 (data : Z) : list Z := setUint16 data.

(** Line 313: [Math.max(-1, Math.min(1, channels[i][offset]))]. *)
Definition clampSample (x : sample) : sample :=
  match x with
  | Fin v => Fin (clamp (-(1)) 1 v)
  | NaN => NaN
  end.

(** Line 314: [(0.5 + sample < 0 ? sample * 32768 : sample * 32767)|0].
    The addition binds tighter than the comparison, so the test is
    [(0.5 + sample) < 0].  NaN fails the test and [NaN|0] is 0. *)
Definition scaleSample (x : sample) : Z :=
  match x with
  | Fin s =>
      toInt32 (if Qlt_le_dec ((1 # 2) + s) 0 then s * 32768 else s * 32767)
  | NaN => 0
  end.

Definition sampleToInt16 (x : sample) : Z := scaleSample (clampSample x).

(** One pass of the inner [for] loop: the frame at [offset], one 16-bit
    store per channel. *)
Definition writeFrame (channels : list (list sample)) (offset : nat) : list Z :=
  flat_map (fun ch => setInt16 (sampleToInt16 (nth offset ch NaN))) channels.

(** The 44 header bytes, in the order of the thirteen stores of lines
    305-309; [len] is the [length] of the source, the size of the file.
    The last store is [setUint32(length - pos - 4)] with [pos = 40]. *)
Definition header (numOfChan rate len : Z) : list Z :=
  setUint32 0x46464952 ++ setUint32 (len - 8) ++ setUint32 0x45564157 ++
  setUint32 0x20746d66 ++ setUint32 16 ++ setUint16 1 ++ setUint16 numOfChan ++
  setUint32 rate ++ setUint32 (rate * 2 * numOfChan) ++
  setUint16 (numOfChan * 2) ++ setUint16 16 ++ setUint32 0x61746164 ++
  setUint32 (len - 40 - 4).

(** [bufferToWav]: the stores are sequential from position 0 and fill
    the ArrayBuffer exactly, so the buffer is the concatenation of what
    they write.  The [while (pos < length)] loop runs once per frame. *)
Definition bufferToWav (abuffer : AudioBuffer) : list Z :=
  let numOfChan := numberOfChannels abuffer in
  let len := length abuffer * numOfChan * 2 + 44 in
  header numOfChan (sampleRate abuffer) len ++
  flat_map (writeFrame (channelData abuffer))
           (seq 0 (Z.to_nat (length abuffer))).

(** The conversion as the specification words it: negative samples are
    scaled by 32768, the others by 32767, then truncated toward zero. *)
Definition specSampleToInt16 (v : Q) : Z :=
  let c := clamp (-(1)) 1 v in
  trunc (if Qlt_le_dec c 0 then c * 32768 else c * 32767).

(** Readers of the little-endian fields, for statements about the
    produced bytes. *)
Definition readU16 (bytes : list Z) (pos : nat) : Z :=
  nth pos bytes 0 + 256 * nth (pos + 1) bytes 0.

Definition readU32 (bytes : list Z) (pos : nat) : Z :=
  nth pos bytes 0 + 256 * nth (pos + 1) bytes 0 +
  65536 * nth (pos + 2) bytes 0 + 16777216 * nth (pos + 3) bytes 0.

Definition readI16 (bytes : list Z) (pos : nat) : Z :=
  wrapSigned 16 (readU16 bytes pos).

(** A standard reader of the canonical 44-byte layout: the channel
    count, block size and data size come from the header, a sample is
    the signed 16-bit value at its interleaved position, decoded on the
    32767 full scale. *)
Definition readNumChannels (bytes : list Z) : Z := readU16 bytes 22.

Definition readBlockAlign (bytes : list Z) : Z := readU16 bytes 32.

Definition readDataSize (bytes : list Z) : Z := readU32 bytes 40.

Definition readFrameCount (bytes : list Z) : Z :=
  readDataSize bytes / readBlockAlign bytes.

Definition readPcm (bytes : list Z) (c j : nat) : Z :=
  readI16 bytes (44 + j * Z.to_nat (readBlockAlign bytes) + 2 * c).

Definition decodeSample (bytes : list Z) (c j : nat) : Q :=
  inject_Z (readPcm bytes c j) / 32767.

End Wav.

(* ================================================================== *)
(** ** Errors and the platform's buffer allocation *)

(** What a call can fail with.  [DecodeError], [InvalidRange] and
    [EncodeFailure] are the error kinds the specification names; the
    components raise none of them themselves.  [NotSupportedError] is the
    DOMException of [createBuffer], [TypeError] the dereference of a null
    buffer. *)
Inductive error : Type :=
| DecodeError
| InvalidRange
| EncodeFailure
| NotSupportedError
| TypeError.

Inductive result (A : Type) : Type :=
| Ok (a : A)
| Err (e : error).

Arguments Ok {A} a.
Arguments Err {A} e.

Definition bind {A B : Type} (r : result A) (k : A -> result B) : result B :=
  match r with
  | Ok a => k a
  | Err e => Err e
  end.

Notation "x <- r ;; k" := (bind r (fun x => k))
  (at level 61, r at next level, right associativity).

(** WebIDL conversion of a number to [unsigned long]. *)
Definition toUint32 (n : Z) : Z := n mod 2 ^ 32.

(** [BaseAudioContext.createBuffer(numberOfChannels, length, sampleRate)]
    of the Web Audio API: the arguments are converted to [unsigned long];
    a channel count or a length of zero is rejected with
    [NotSupportedError]; otherwise the buffer is zero-filled.  The sample
    rate is always that of an existing buffer, so it is in the supported
    range. *)
Definition createBuffer (numChannels len rate : Z) : result AudioBuffer :=
  let n := toUint32 numChannels in
  let l := toUint32 len in
  if (n =? 0) || (l =? 0) then Err NotSupportedError
  else Ok {| sampleRate := rate;
             length := l;
             channelData := repeat (repeat (Fin 0) (Z.to_nat l)) (Z.to_nat n) |}.

(* ================================================================== *)
(** ** Segment slicer: [sliceAudio] and [generateSegments] *)

(** One produced fragment.  The [id] (a random UUID) and the object URL
    of the source record are handles of the platform and carry no audio
    content; the record keeps the time range and the WAV bytes. *)
Record Segment : Type := mkSegment {
  seg_start : Q;
  seg_end : Q;
  seg_blob : list Z
}.

(** [arr[i] = x] on a typed array: a store out of range is ignored. *)
Fixpoint store (arr : list sample) (i : nat) (x : sample) : list sample :=
  match arr, i with
  | [], _ => []
  | _ :: t, O => x :: t
  | h :: t, S k => h :: store t k x
  end.

(** Line 291, the body of the copy loop:
    [if (offset + i < channelData.length) newChannelData[i] = channelData[offset + i]]. *)
Definition copyStep (channelData : list sample) (offset : Z)
           (newChannelData : list sample) (i : nat) : list sample :=
  if offset + Z.of_nat i <? Z.of_nat (List.length channelData)
  then store newChannelData i (get channelData (offset + Z.of_nat i))
  else newChannelData.

(** Lines 290-292: [for (i = 0; i < frameCount; i++)] over one channel. *)
Definition copyChannel (channelData newChannelData : list sample)
           (offset frameCount : Z) : list sample :=
  fold_left (copyStep channelData offset)
            (seq 0 (Z.to_nat frameCount))
            newChannelData.

(** Lines 286-293: the loop over the channels of the source. *)
Definition copyChannels (buffer newBuffer : AudioBuffer)
           (offset frameCount : Z) : AudioBuffer :=
  {| sampleRate := sampleRate newBuffer;
     length := length newBuffer;
     channelData :=
       map (fun c => copyChannel (getChannelData buffer c)
                                 (getChannelData newBuffer c)
                                 offset frameCount)
           (seq 0 (Z.to_nat (numberOfChannels buffer))) |}.

(** The AudioBuffer that [sliceAudio] hands to [bufferToWav]. *)
Definition sliceBuffer (buffer : AudioBuffer) (start end_ : Q) : result AudioBuffer :=
  let duration := (end_ - start)%Q in
  let rate := sampleRate buffer in
  let frameCount := floor (duration * inject_Z rate) in
  newBuffer <- createBuffer (numberOfChannels buffer) frameCount rate ;;
  let offset := floor (start * inject_Z rate) in
  Ok (copyChannels buffer newBuffer offset frameCount).

(** [sliceAudio(buffer, start, end)]; the rejected promise is [Err]. *)
Definition sliceAudio (buffer : AudioBuffer) (start end_ : Q) : result (list Z) :=
  newBuffer <- sliceBuffer buffer start end_ ;;
  Ok (Wav.bufferToWav newBuffer).

(** Modelled from the spec: the [AudioAsset] record of [types.ts], which
    is not among the sources; the fields are those the components read
    and write ([id], [file], [name], [duration], [url], [buffer],
    [splitPoints], [segments]).  The uploaded [File] is opaque here. *)
Record AudioAsset : Type := mkAudioAsset {
  assetId : string;
  file : list Z;
  name : string;
  duration : Q;
  url : string;
  buffer : option AudioBuffer;
  splitPoints : list Q;
  segments : list Segment
}.

(** Modelled from the spec: the [AppConfig] record of [types.ts], with
    its single tunable. *)
Record AppConfig : Type := mkAppConfig {
  maxSegmentDuration : Q
}.

(** [sliceAudio(asset.buffer!, start, end)]: the non-null assertion is
    erased at run time, a null buffer fails at [buffer.sampleRate]. *)
Definition sliceAsset (b : option AudioBuffer) (start end_ : Q) : result (list Z) :=
  match b with
  | Some buf => sliceAudio buf start end_
  | None => Err TypeError
  end.

(** Lines 264-276: the loop over the consecutive pairs of [points]. *)
Fixpoint segmentLoop (b : option AudioBuffer) (points : list Q)
  : result (list Segment) :=
  match points with
  | start :: ((end_ :: _) as rest) =>
      if Qlt_le_dec (end_ - start) (1 # 10) then segmentLoop b rest
      else
        segmentBlob <- sliceAsset b start end_ ;;
        newSegments <- segmentLoop b rest ;;
        Ok (mkSegment start end_ segmentBlob :: newSegments)
  | _ => Ok []
  end.

(** Line 262: [[0, ...asset.splitPoints, asset.duration]]. *)
Definition boundaries (asset : AudioAsset) : list Q :=
  0%Q :: splitPoints asset ++ [duration asset].

(** [generateSegments]: the updated asset, or the error that rejected
    the promise (no update then). *)
Definition generateSegments (asset : AudioAsset) : result AudioAsset :=
  newSegments <- segmentLoop (buffer asset) (boundaries asset) ;;
  Ok {| assetId := assetId asset; file := file asset; name := name asset;
        duration := duration asset; url := url asset; buffer := buffer asset;
        splitPoints := splitPoints asset; segments := newSegments |}.

(* ================================================================== *)
(** ** Silence-biased split finder: [autoDetectSplits] *)

Module SplitFinder.

(** [Math.abs] and [+] on numbers that may be NaN. *)
Definition absSample (x : sample) : sample :=
  match x with
  | Fin v => Fin (Qabs v)
  | NaN => NaN
  end.

Definition addSample (a b : sample) : sample :=
  match a, b with
  | Fin x, Fin y => Fin (x + y)
  | _, _ => NaN
  end.

(** Line 247: [for (i = 0; i < chunkSize; i++) energy += Math.abs(buffer[s + i])]. *)
Definition chunkEnergy (buffer : list sample) (s chunkSize : Z) : sample :=
  fold_left
    (fun energy i => addSample energy (absSample (get buffer (s + Z.of_nat i))))
    (seq 0 (Z.to_nat chunkSize))
    (Fin 0).

(** [energy < minEnergy]; [minEnergy] starts at [Infinity] ([None]) and
    holds a number afterwards.  A comparison with NaN is false. *)
Definition energyLt (energy : sample) (minEnergy : option Q) : bool :=
  match energy, minEnergy with
  | NaN, _ => false
  | Fin _, None => true
  | Fin e, Some m => if Qlt_le_dec e m then true else false
  end.

Definition timeOf (s rate : Z) : Q := inject_Z s / inject_Z rate.

(** Lines 244-252, the [for (s = startSample; s < endSample; s += chunkSize)]
    loop from the state [(s, minEnergy, bestTime)]; the value is
    [bestTime] at the exit, [None] when the fuel runs out. *)
Fixpoint scanChunks (fuel : nat) (buffer : list sample)
         (rate chunkSize endSample s : Z)
         (minEnergy : option Q) (bestTime : Q) : option Q :=
  match fuel with
  | O => None
  | S fuel' =>
      if s <? endSample then
        if s + chunkSize >? Z.of_nat (List.length buffer) then Some bestTime
        else
          match chunkEnergy buffer s chunkSize with
          | Fin e =>
              if energyLt (Fin e) minEnergy
              then scanChunks fuel' buffer rate chunkSize endSample
                              (s + chunkSize) (Some e) (timeOf s rate)
              else scanChunks fuel' buffer rate chunkSize endSample
                              (s + chunkSize) minEnergy bestTime
          | NaN =>
              scanChunks fuel' buffer rate chunkSize endSample
                         (s + chunkSize) minEnergy bestTime
          end
      else Some bestTime
  end.

Definition searchWindow (maxDur : Q) : Q := Qmin 5 (maxDur / 2).

Definition searchStartSec (currentPos maxDur : Q) : Q :=
  Qmax (currentPos + 1) (currentPos + maxDur - searchWindow maxDur).

Definition searchEndSec (currentPos maxDur : Q) : Q := currentPos + maxDur.

Definition chunkSizeOf (rate : Z) : Z := floor ((1 # 10) * inject_Z rate).

(** Lines 237-252: the body of the [while] loop up to the [push]; the
    value is the [bestTime] that is pushed. *)
Definition findBest (fuel : nat) (buffer : list sample) (rate : Z)
           (maxDur currentPos : Q) : option Q :=
  let startSample := floor (searchStartSec currentPos maxDur * inject_Z rate) in
  let endSample := floor (searchEndSec currentPos maxDur * inject_Z rate) in
  scanChunks fuel buffer rate (chunkSizeOf rate) endSample startSample
             None (currentPos + maxDur).

(** Lines 236-255: the [while (currentPos + maxDur < totalDuration)]
    loop from the state [(currentPos, newSplits)]. *)
Fixpoint splitLoop (fuel : nat) (buffer : list sample) (rate : Z)
         (totalDuration maxDur : Q) (currentPos : Q) (newSplits : list Q)
  : option (list Q) :=
  match fuel with
  | O => None
  | S fuel' =>
      if Qlt_le_dec (currentPos + maxDur) totalDuration then
        match findBest fuel' buffer rate maxDur currentPos with
        | None => None
        | Some bestTime =>
            splitLoop fuel' buffer rate totalDuration maxDur
                      bestTime (newSplits ++ [bestTime])
        end
      else Some newSplits
  end.

(** The list [newSplits] at line 256. *)
Definition findSplits (fuel : nat) (buffer : list sample) (rate : Z)
           (totalDuration maxDur : Q) : option (list Q) :=
  splitLoop fuel buffer rate totalDuration maxDur 0 [].

End SplitFinder.

(** [autoDetectSplits]: [None] when the fuel runs out, [Some None] when
    the function returns without an update (no buffer), [Some (Some a)]
    when [onUpdate(a)] is called. *)
Definition autoDetectSplits (fuel : nat) (config : AppConfig) (asset : AudioAsset)
  : option (option AudioAsset) :=
  match buffer asset with
  | None => Some None
  | Some b =>
      match SplitFinder.findSplits fuel (getChannelData b 0) (sampleRate b)
                                   (duration asset) (maxSegmentDuration config) with
      | None => None
      | Some newSplits =>
          Some (Some {| assetId := assetId asset; file := file asset;
                        name := name asset; duration := duration asset;
                        url := url asset; buffer := buffer asset;
                        splitPoints := newSplits; segments := [] |})
      end
  end.

(* ================================================================== *)
(** ** Manual edits of the split list *)

(** [{ ...asset, splitPoints: l }]. *)
Definition setSplitPoints (asset : AudioAsset) (l : list Q) : AudioAsset :=
  {| assetId := assetId asset; file := file asset; name := name asset;
     duration := duration asset; url := url asset; buffer := buffer asset;
     splitPoints := l; segments := segments asset |}.

(** [arr.includes(t)] on numbers. *)
Definition includes (l : list Q) (t : Q) : bool := existsb (Qeq_bool t) l.

(** [arr.sort((a, b) => a - b)]: a stable ascending sort of numbers, as
    an insertion sort (an element goes before the first one it does not
    exceed). *)
Fixpoint insertNum (x : Q) (l : list Q) : list Q :=
  match l with
  | [] => [x]
  | y :: l' => if Qlt_le_dec y x then y :: insertNum x l' else x :: y :: l'
  end.

Definition sortNum (l : list Q) : list Q := fold_right insertNum [] l.

(** [addSplitPoint(time?)]: [None] is the early return at line 216. *)
Definition addSplitPoint (time : option Q) (currentTime : Q) (asset : AudioAsset)
  : option AudioAsset :=
  let t := clamp 0 (duration asset)
                 (match time with Some x => x | None => currentTime end) in
  if includes (splitPoints asset) t then None
  else Some (setSplitPoints asset (sortNum (splitPoints asset ++ [t]))).

(** [adjustSplitPoint(point, delta)], present in the earlier revision of
    the component only. *)
Definition adjustSplitPoint (point delta : Q) (asset : AudioAsset) : AudioAsset :=
  let newPoint := clamp 0 (duration asset) (point + delta) in
  setSplitPoints asset
    (sortNum (map (fun p => if Qeq_bool p point then newPoint else p)
                  (splitPoints asset))).

(** [removeSplitPoint(point)]. *)
Definition removeSplitPoint (point : Q) (asset : AudioAsset) : AudioAsset :=
  setSplitPoints asset
    (filter (fun p => negb (Qeq_bool p point)) (splitPoints asset)).

(* ================================================================== *)
(** ** Waveform peak decimation (the two drawing effects) *)

Module Waveform.

(** One pass of the inner loop: [if (datum < min) min = datum;
    if (datum > max) max = datum].  Both comparisons are false when
    [datum] is [undefined] or NaN. *)
Definition scanStep (data : list sample) (i step : Z) (acc : Q * Q) (j : nat)
  : Q * Q :=
  let min := fst acc in
  let max := snd acc in
  match get data (i * step + Z.of_nat j) with
  | Fin datum =>
      (if Qlt_le_dec datum min then datum else min,
       if Qlt_le_dec max datum then datum else max)
  | NaN => (min, max)
  end.

(** [let min = 1.0; let max = -1.0; for (j = 0; j < step; j++) ...]:
    the pair that column [i] is drawn from. *)
Definition scanColumn (data : list sample) (i step : Z) : Q * Q :=
  fold_left (scanStep data i step) (seq 0 (Z.to_nat step)) (1%Q, (-(1))%Q).

(** [Math.ceil(data.length / width)]. *)
Definition stepOf (data : list sample) (width : Z) : Z :=
  ceil (inject_Z (Z.of_nat (List.length data)) / inject_Z width).

(** [for (i = 0; i < width; i++)]: one pair per canvas column. *)
Definition peaks (data : list sample) (width : Z) : list (Q * Q) :=
  map (fun i => scanColumn data (Z.of_nat i) (stepOf data width))
      (seq 0 (Z.to_nat width)).

(** [data.subarray(begin, end)] of a typed array: negative indices
    count from the end, both are clamped to the array. *)
Definition relIndex (len i : Z) : Z :=
  if i <? 0 then Z.max (len + i) 0 else Z.min i len.

Definition subarray (data : list sample) (begin end_ : Z) : list sample :=
  let len := Z.of_nat (List.length data) in
  let b := relIndex len begin in
  let e := relIndex len end_ in
  firstn (Z.to_nat (e - b)) (skipn (Z.to_nat b) data).

(** The effect of [AudioProcessor]: the whole of channel 0. *)
Definition assetPeaks (b : AudioBuffer) (width : Z) : list (Q * Q) :=
  peaks (getChannelData b 0) width.

(** The effect of [AudioSegmentPreview]: the range of one segment. *)
Definition segmentPeaks (b : AudioBuffer) (start end_ : Q) (width : Z)
  : list (Q * Q) :=
  let data := getChannelData b 0 in
  let startIdx := floor (start * inject_Z (sampleRate b)) in
  let endIdx := floor (end_ * inject_Z (sampleRate b)) in
  peaks (subarray data startIdx endIdx) width.

(** Minimum and maximum of the numbers of a window, seeded like the
    scan, for the statement of what a column holds. *)
Definition numbersOf (l : list sample) : list Q :=
  flat_map (fun x => match x with Fin v => [v] | NaN => [] end) l.

(** The samples column [i] covers: indices [i*step .. i*step+step-1]
    that exist in [data]. *)
Definition window (data : list sample) (i step : Z) : list sample :=
  firstn (Z.to_nat step) (skipn (Z.to_nat (i * step)) data).

End Waveform.

(* ================================================================== *)
(** ** Frame brightness prober: [findGoodFrame] *)

Module Prober.

(** The seekable video as the prober uses it: [frameAt t] is the RGBA
    data [getImageData] returns once the seek to [t] has completed, and
    [toBlob] the PNG encoder of the canvas (it may yield null). *)
Record VideoHandle : Type := mkVideo {
  videoDuration : Q;
  frameAt : Q -> list Z;
  toBlob : list Z -> option (list Z)
}.

Record Frame : Type := mkFrame {
  frameBlob : list Z;
  frameTime : Q
}.

(** Lines 40-42: [for (i = 0; i < data.length; i += 4)
      total += (data[i] + data[i+1] + data[i+2]) / 3].
    A missing channel value is [undefined], the sum is then NaN. *)
Fixpoint brightnessLoop (data : list Z) (total : sample) : sample :=
  match data with
  | [] => total
  | r :: g :: b :: [] =>
      SplitFinder.addSample total (Fin (inject_Z (r + g + b) / 3))
  | r :: g :: b :: _ :: rest =>
      brightnessLoop rest
        (SplitFinder.addSample total (Fin (inject_Z (r + g + b) / 3)))
  | _ => NaN
  end.

Definition totalBrightness (data : list Z) : sample :=
  brightnessLoop data (Fin 0).

(** Line 43: [totalBrightness / (imageData.length / 4)]; 0/0 is NaN. *)
Definition avgBrightness (data : list Z) : sample :=
  match totalBrightness data with
  | Fin t =>
      match data with
      | [] => NaN
      | _ => Fin (t / (inject_Z (Z.of_nat (List.length data)) / 4))
      end
  | NaN => NaN
  end.

(** [avgBrightness < 10 && time > 0.5]. *)
Definition tooDark (avg : sample) (time : Q) : bool :=
  ltNum avg 10 && (if Qlt_le_dec (1 # 2) time then true else false).

(** [findGoodFrame(time)]: [None] when the fuel runs out,
    [Some None] for [resolve(null)], [Some (Some f)] for the frame. *)
Fixpoint findGoodFrame (fuel : nat) (video : VideoHandle) (time : Q)
  : option (option Frame) :=
  match fuel with
  | O => None
  | S fuel' =>
      let imageData := frameAt video time in
      if tooDark (avgBrightness imageData) time
      then findGoodFrame fuel' video (time - (1 # 10))
      else
        match toBlob video imageData with
        | Some blob => Some (Some (mkFrame blob time))
        | None => Some None
        end
  end.

(** The times the search visits from [time]: 0.1 is subtracted [k]
    times. *)
Fixpoint probeTime (time : Q) (k : nat) : Q :=
  match k with
  | O => time
  | S k' => probeTime (time - (1 # 10)) k'
  end.

(** The outcome of accepting the frame at [time] (lines 49-55). *)
Definition accept (video : VideoHandle) (time : Q) : option (option Frame) :=
  match toBlob video (frameAt video time) with
  | Some blob => Some (Some (mkFrame blob time))
  | None => Some None
  end.

(** An ImageData buffer holds four values per pixel and at least one
    pixel. *)
Definition wfImage (data : list Z) : Prop :=
  data <> [] /\ (List.length data mod 4 = 0)%nat.

(** Luma of a pixel, their sum over the RGBA quadruples of a buffer, and
    the number of pixels. *)
Definition luma (r g b : Z) : Q := inject_Z (r + g + b) / 3.

Fixpoint lumaSum (data : list Z) : Q :=
  match data with
  | r :: g :: b :: _ :: rest => (luma r g b + lumaSum rest)%Q
  | _ => 0%Q
  end.

Definition pixelCount (data : list Z) : Z := Z.of_nat (List.length data) / 4.

(** Line 22: the search starts at [duration - 0.05]. *)
Definition extractLastFrame (fuel : nat) (video : VideoHandle)
  : option (option Frame) :=
  findGoodFrame fuel video (videoDuration video - (1 # 20)).

End Prober.

(* ================================================================== *)
(** ** Vocabulary of the statements *)

(** The consecutive pairs [(points[i], points[i+1])]. *)
Definition adjacentPairs (points : list Q) : list (Q * Q) :=
  combine points (tl points).

(** The guard of line 267, [end - start < 0.1], negated. *)
Definition longEnough (p : Q * Q) : bool :=
  if Qlt_le_dec (snd p - fst p) (1 # 10) then false else true.

Definition segRange (s : Segment) : Q * Q := (seg_start s, seg_end s).

(** Sum of the absolute amplitudes of the numbers of a chunk. *)
Definition sumAbs (chunk : list sample) : Q :=
  fold_left (fun acc x => match x with Fin v => (acc + Qabs v)%Q | NaN => acc end)
            chunk 0%Q.

(** The samples [data[s .. s+n-1]]. *)
Definition slice (data : list sample) (s n : Z) : list sample :=
  firstn (Z.to_nat n) (skipn (Z.to_nat s) data).

(** [R] holds between the cursor and the first element, and between each
    element and the next: the cursor of the split loop is the previous
    split, 0 at the start. *)
Fixpoint chainFrom (R : Q -> Q -> Prop) (cursor : Q) (l : list Q) : Prop :=
  match l with
  | [] => True
  | t :: r => R cursor t /\ chainFrom R t r
  end.

(** A time that is a whole number of sample periods. *)
Definition onGrid (rate : Z) (x : Q) : Prop :=
  exists z : Z, (x * inject_Z rate == inject_Z z)%Q.

(** The positions the chunk loop visits from [s]: [s + j * chunkSize]. *)
Definition reach (chunkSize s t : Z) : Prop :=
  exists j : nat, t = s + Z.of_nat j * chunkSize.

(** A chunk that starts inside the window and ends inside the buffer. *)
Definition completeChunk (len chunkSize endSample t : Z) : Prop :=
  t < endSample /\ t + chunkSize <= len.

(** What the chunk loop has established at its exit, from the state
    [(s, minEnergy, bestTime)] it was entered with: either no visited
    chunk improved on [minEnergy] and [bestTime] is returned, or the
    result is the start time of the first visited chunk of least energy,
    which is below [minEnergy].  [E t] is the energy of the chunk at [t]. *)
Definition scanPost (E : Z -> Q) (rate chunkSize endSample len : Z)
           (s : Z) (minEnergy : option Q) (bestTime best : Q) : Prop :=
  (best = bestTime /\
   forall t, reach chunkSize s t -> completeChunk len chunkSize endSample t ->
             exists m, minEnergy = Some m /\ (m <= E t)%Q)
  \/
  (exists t,
      reach chunkSize s t /\ completeChunk len chunkSize endSample t /\
      best = SplitFinder.timeOf t rate /\
      (forall m, minEnergy = Some m -> (E t < m)%Q) /\
      (forall t', reach chunkSize s t' -> completeChunk len chunkSize endSample t' ->
                  (E t <= E t')%Q) /\
      (forall t', reach chunkSize s t' -> completeChunk len chunkSize endSample t' ->
                  t' < t -> (E t < E t')%Q)).

(** Every iteration of the split loop advances the cursor by at least
    this much (for a rate of at least 10 Hz). *)
Definition progress (maxDur : Q) : Q := Qmin maxDur (9 # 10).

(** Fuel that lets [splitLoop] run to its exit: one unit per iteration of
    the outer loop, on top of what one chunk scan needs. *)
Definition scanFuel (rate : Z) : nat := S (Z.to_nat (5 * rate)).

Definition loopSteps (totalDuration maxDur : Q) : nat :=
  S (Z.to_nat (Qceiling ((totalDuration - maxDur) / progress maxDur))).

Definition splitFuel (rate : Z) (totalDuration maxDur : Q) : nat :=
  S (loopSteps totalDuration maxDur + scanFuel rate).

(** Relations between the cursor and the split that follows it. *)
Definition advance (maxDur totalDuration : Q) (cursor t : Q) : Prop :=
  (cursor + progress maxDur <= t /\ t <= cursor + maxDur /\ t < totalDuration)%Q.

Definition spaced (cursor t : Q) : Prop := (cursor + 1 <= t)%Q.

(** The split list invariant as the data model states it (open range),
    and as the manual edits keep it (closed range). *)
Definition strictSplitInv (D : Q) (l : list Q) : Prop :=
  StronglySorted Qlt l /\ Forall (fun t => (0 < t /\ t < D)%Q) l.

Definition splitInv (D : Q) (l : list Q) : Prop :=
  StronglySorted Qlt l /\ Forall (fun t => (0 <= t /\ t <= D)%Q) l.

(* ================================================================== *)
(** ** Concrete inputs used in the examples *)

(** A mono buffer of sixteen frames at 8000 Hz. *)
Definition toneBuffer : AudioBuffer :=
  {| sampleRate := 8000;
     length := 16;
     channelData :=
       [[Fin 0; Fin (1 # 4); Fin (1 # 2); Fin (3 # 4); Fin 1; Fin (3 # 4);
         Fin (1 # 2); Fin (1 # 4); Fin 0; Fin (-1 # 4); Fin (-1 # 2);
         Fin (-3 # 4); Fin (-(1)); Fin (-3 # 4); Fin (-1 # 2); Fin (-1 # 4)]] |}.

(** A 0.3 s mono clip at 8000 Hz with two manual splits. *)
Definition clipBuffer : AudioBuffer :=
  {| sampleRate := 8000;
     length := 2400;
     channelData := [repeat (Fin (1 # 4)) 2400] |}.

Definition clipAsset : AudioAsset :=
  {| assetId := "a1"; file := []; name := "clip.wav";
     duration := 3 # 10; url := "blob:clip";
     buffer := Some clipBuffer;
     splitPoints := [1 # 10; 1 # 4]; segments := [] |}.

(** A 0.05 s mono clip at 8000 Hz without splits. *)
Definition briefBuffer : AudioBuffer :=
  {| sampleRate := 8000;
     length := 400;
     channelData := [repeat (Fin (1 # 4)) 400] |}.

Definition briefAsset : AudioAsset :=
  {| assetId := "a2"; file := []; name := "brief.wav";
     duration := 1 # 20; url := "blob:brief";
     buffer := Some briefBuffer;
     splitPoints := []; segments := [] |}.

(** Two seconds of silence at 8000 Hz (channel 0). *)
Definition silence2s : list sample := repeat (Fin 0) (Z.to_nat 16000).

(** A configuration inside the range of the settings slider (5 to 30). *)
Definition sliderConfig : AppConfig := {| maxSegmentDuration := 10 |}.

(** A two-second clip whose frames after 1.5 s are black and whose earlier
    frames have luma 50 (one pixel), encoded by the identity. *)
Definition fadeVideo : Prober.VideoHandle :=
  {| Prober.videoDuration := 2;
     Prober.frameAt := fun t => if Qlt_le_dec (3 # 2) t
                                then [0; 0; 0; 255] else [50; 50; 50; 255];
     Prober.toBlob := fun data => Some data |}.

(* ================================================================== *)
(** ** The application shell and the remaining handlers *)

From Stdlib Require Import Sorting.Permutation.

(** [AudioBuffer.duration] of the Web Audio API: [length / sampleRate]. *)
Definition bufferDuration (b : AudioBuffer) : Q :=
  inject_Z (length b) / inject_Z (sampleRate b).

(** The cursor of the split loop after it has pushed the splits [l]. *)
Fixpoint finalCursor (cursor : Q) (l : list Q) : Q :=
  match l with
  | [] => cursor
  | t :: r => finalCursor t r
  end.

(** The value [addSplitPoint] stores: [time ?? currentTime], clamped. *)
Definition addedPoint (time : option Q) (currentTime : Q) (asset : AudioAsset) : Q :=
  clamp 0 (duration asset) (match time with Some x => x | None => currentTime end).

(** The windows of the columns, in order. *)
Definition columnWindows (data : list sample) (width : Z) : list (list sample) :=
  map (fun i => Waveform.window data (Z.of_nat i) (Waveform.stepOf data width))
      (seq 0 (Z.to_nat width)).

(** The stroke of one column: [ctx.moveTo(i, (1 + min) * amp)] and
    [ctx.lineTo(i, (1 + max) * amp)] with [amp = height / 2]; the pair
    holds the two vertical coordinates. *)
Definition columnLine (height : Q) (p : Q * Q) : Q * Q :=
  let amp := (height / 2)%Q in
  (((1 + fst p) * amp)%Q, ((1 + snd p) * amp)%Q).

(** The strokes of a waveform effect on a canvas of the given size. *)
Definition drawWaveform (data : list sample) (width : Z) (height : Q) : list (Q * Q) :=
  map (columnLine height) (Waveform.peaks data width).

(* ================================================================== *)
(** ** Segment preview and archive download *)

From Stdlib Require Import Ascii.
From Stdlib Require DecimalString DecimalZ DecimalPos.

(** The samples the preview of a segment draws from (lines 30-34 of
    [AudioSegmentPreview]): [data.subarray(startIdx, endIdx)] of
    channel 0. *)
Definition previewData (b : AudioBuffer) (start end_ : Q) : list sample :=
  let data := getChannelData b 0 in
  let startIdx := floor (start * inject_Z (sampleRate b)) in
  let endIdx := floor (end_ * inject_Z (sampleRate b)) in
  Waveform.subarray data startIdx endIdx.

(** [Math.round] on a finite number: the nearest integer, halves go
    up. *)
Definition round (x : Q) : Z := floor (x + (1 # 2)).

(** An integer inside a template literal: its decimal digits, with a
    minus sign when negative (JavaScript switches to exponent notation
    from 1e21 on, far beyond any index or duration in seconds). *)
Definition numberToString (z : Z) : string :=
  DecimalString.NilZero.string_of_int (Z.to_int z).

Module Zip.

(** The archive under construction: entry names with their data, in
    insertion order. *)
Definition archive : Type := list (string * list Z).

(** [zip.file(name, data)]: adds the entry, or replaces the data of the
    entry that already has the name. *)
Fixpoint file (zip : archive) (name : string) (data : list Z) : archive :=
  match zip with
  | [] => [(name, data)]
  | (n, d) :: rest =>
      if String.eqb n name then (n, data) :: rest
      else (n, d) :: file rest name data
  end.

End Zip.

(** Line 326, the name of the entry of segment [i] (counted from 0):
    [`Jimeng_Segment_${i + 1}_${Math.round(seg.end - seg.start)}s.wav`]. *)
Definition entryName (i : nat) (seg : Segment) : string :=
  ("Jimeng_Segment_" ++ numberToString (Z.of_nat i + 1) ++ "_"
   ++ numberToString (round (seg_end seg - seg_start seg)) ++ "s.wav")%string.

(** Lines 325-327: [asset.segments.forEach((seg, i) => zip.file(...))],
    from index [i] on. *)
Fixpoint zipSegments (zip : Zip.archive) (i : nat) (segs : list Segment)
  : Zip.archive :=
  match segs with
  | [] => zip
  | seg :: rest =>
      zipSegments (Zip.file zip (entryName i seg) (seg_blob seg)) (S i) rest
  end.

(** [downloadAllSegments]: the content of the archive that is offered
    for download. *)
Definition downloadAllSegments (asset : AudioAsset) : Zip.archive :=
  zipSegments [] 0 (segments asset).

(** The entries the archive is expected to hold: one per segment, in
    order. *)
Definition expectedEntries (i : nat) (segs : list Segment) : Zip.archive :=
  map (fun p => (entryName (fst p) (snd p), seg_blob (snd p)))
      (combine (seq i (List.length segs)) segs).

(** A string without the character [c]. *)
Fixpoint freeOf (c : ascii) (s : string) : Prop :=
  match s with
  | EmptyString => True
  | String x r => x <> c /\ freeOf c r
  end.

(* ================================================================== *)
(** ** Video asset and the frame extraction handler *)

Module Video.

(** [VideoAsset] of [types.ts] (lines 174-185 of part_002; the
    interfaces [AudioAsset] and [AppConfig] of the same file, lines
    157-172 and 187-189, have the fields of the records above).  The
    object URL of the extracted frame is a handle of the platform; the
    record keeps the PNG bytes and the timestamp. *)
Record LastFrame : Type := mkLastFrame {
  blob : list Z;
  timestamp : Q
}.

Record VideoAsset : Type := mkVideoAsset {
  assetId : string;
  file : list Z;
  name : string;
  duration : Q;
  url : string;
  lastFrame : option LastFrame
}.

(** [extractLastFrame] of [VideoProcessor] with the video element and
    the 2D context present: [None] when the fuel runs out, [Some None]
    when the search resolved to null (no update is sent), otherwise the
    asset passed to [onUpdate]. *)
Definition extractLastFrame (fuel : nat) (video : Prober.VideoHandle)
           (asset : VideoAsset) : option (option VideoAsset) :=
  match Prober.extractLastFrame fuel video with
  | None => None
  | Some None => Some None
  | Some (Some result) =>
      Some (Some {| assetId := assetId asset; file := file asset;
                    name := name asset;
                    duration := Prober.videoDuration video;
                    url := url asset;
                    lastFrame := Some {| blob := Prober.frameBlob result;
                                         timestamp := Prober.frameTime result |} |})
  end.

End Video.

(** The red, green and blue values of every pixel lie between [lo] and
    [hi]; the alpha values are free. *)
Fixpoint coloursWithin (lo hi : Z) (data : list Z) : Prop :=
  match data with
  | r :: g :: b :: _ :: rest =>
      (lo <= r <= hi /\ lo <= g <= hi /\ lo <= b <= hi)
      /\ coloursWithin lo hi rest
  | _ => True
  end.

(** A clip of two seconds whose every frame is black. *)
Definition blackVideo : Prober.VideoHandle :=
  {| Prober.videoDuration := 2;
     Prober.frameAt := fun _ => [0; 0; 0; 255];
     Prober.toBlob := fun data => Some data |}.

Definition emptyVideoAsset : Video.VideoAsset :=
  {| Video.assetId := "v1"; Video.file := []; Video.name := "clip.mp4";
     Video.duration := 0; Video.url := "blob:v1"; Video.lastFrame := None |}.

(* ================================================================== *)
(** ** The application state: [App] *)

Module App.

Inductive ProcessingStatus : Type :=
| IDLE
| UPLOADING
| PROCESSING
| COMPLETED
| ERROR.

(** [AppState] of [types.ts]. *)
Record AppState : Type := mkAppState {
  audio : option AudioAsset;
  video : option Video.VideoAsset;
  status : ProcessingStatus;
  progress : Z;
  error : option string;
  config : AppConfig
}.

(** The state [useState] starts from. *)
Definition initialState : AppState :=
  {| audio := None; video := None; status := IDLE; progress := 0;
     error := None; config := {| maxSegmentDuration := 30 |} |}.

(** What the platform supplies for an uploaded file: the UUID, the
    bytes, the file name and the object URL. *)
Record Upload : Type := mkUpload {
  uploadId : string;
  uploadFile : list Z;
  uploadName : string;
  uploadUrl : string
}.

(** The first [setState] of both upload handlers. *)
Definition beginUpload (prev : AppState) : AppState :=
  {| audio := audio prev; video := video prev; status := PROCESSING;
     progress := 10; error := None; config := config prev |}.

(** The asset [handleAudioUpload] builds from the decoded buffer. *)
Definition audioAssetOf (u : Upload) (audioBuffer : AudioBuffer) : AudioAsset :=
  {| assetId := uploadId u; file := uploadFile u; name := uploadName u;
     duration := bufferDuration audioBuffer; url := uploadUrl u;
     buffer := Some audioBuffer; splitPoints := []; segments := [] |}.

(** The second [setState] of [handleAudioUpload], once the [try] block
    has settled: [decoded] is the decoded buffer, or the exception that
    reached the [catch]. *)
Definition audioSettled (u : Upload) (decoded : result AudioBuffer)
           (prev : AppState) : AppState :=
  match decoded with
  | Ok audioBuffer =>
      {| audio := Some (audioAssetOf u audioBuffer); video := video prev;
         status := COMPLETED; progress := 100; error := error prev;
         config := config prev |}
  | Err _ =>
      {| audio := audio prev; video := video prev; status := ERROR;
         progress := progress prev;
         error := Some "Failed to process audio file."; config := config prev |}
  end.

Definition videoAssetOf (u : Upload) : Video.VideoAsset :=
  {| Video.assetId := uploadId u; Video.file := uploadFile u;
     Video.name := uploadName u; Video.duration := 0;
     Video.url := uploadUrl u; Video.lastFrame := None |}.

(** [handleVideoUpload]: it never awaits, both updates are applied in
    one go. *)
Definition handleVideoUpload (u : Upload) (prev : AppState) : AppState :=
  let prev := beginUpload prev in
  {| audio := audio prev; video := Some (videoAssetOf u); status := COMPLETED;
     progress := 100; error := error prev; config := config prev |}.

Definition clearAudio (prev : AppState) : AppState :=
  {| audio := None; video := video prev; status := status prev;
     progress := progress prev; error := error prev; config := config prev |}.

Definition clearVideo (prev : AppState) : AppState :=
  {| audio := audio prev; video := None; status := status prev;
     progress := progress prev; error := error prev; config := config prev |}.

(** [updateConfig]: a [Partial<AppConfig>] has the single key or not. *)
Definition updateConfig (newConfig : option Q) (prev : AppState) : AppState :=
  {| audio := audio prev; video := video prev; status := status prev;
     progress := progress prev; error := error prev;
     config := match newConfig with
               | Some m => {| maxSegmentDuration := m |}
               | None => config prev
               end |}.

(** The [onUpdate] callbacks handed to the two processors, and the
    button of the error bar. *)
Definition updateAudio (updated : AudioAsset) (prev : AppState) : AppState :=
  {| audio := Some updated; video := video prev; status := status prev;
     progress := progress prev; error := error prev; config := config prev |}.

Definition updateVideo (updated : Video.VideoAsset) (prev : AppState) : AppState :=
  {| audio := audio prev; video := Some updated; status := status prev;
     progress := progress prev; error := error prev; config := config prev |}.

Definition dismissError (prev : AppState) : AppState :=
  {| audio := audio prev; video := video prev; status := status prev;
     progress := progress prev; error := None; config := config prev |}.

(** The state updates the component can perform. *)
Inductive event : Type :=
| AudioUploadBegun
| AudioUploadSettled (u : Upload) (decoded : result AudioBuffer)
| VideoUploaded (u : Upload)
| AudioCleared
| VideoCleared
| ConfigUpdated (newConfig : option Q)
| AudioUpdated (updated : AudioAsset)
| VideoUpdated (updated : Video.VideoAsset)
| ErrorDismissed.

Definition apply (e : event) (prev : AppState) : AppState :=
  match e with
  | AudioUploadBegun => beginUpload prev
  | AudioUploadSettled u decoded => audioSettled u decoded prev
  | VideoUploaded u => handleVideoUpload u prev
  | AudioCleared => clearAudio prev
  | VideoCleared => clearVideo prev
  | ConfigUpdated newConfig => updateConfig newConfig prev
  | AudioUpdated updated => updateAudio updated prev
  | VideoUpdated updated => updateVideo updated prev
  | ErrorDismissed => dismissError prev
  end.

(** The two conditions of the stepper effect. *)
Definition hasAsset (s : AppState) : bool :=
  match audio s, video s with
  | None, None => false
  | _, _ => true
  end.

Definition hasResult (s : AppState) : bool :=
  match audio s with
  | Some a => match segments a with [] => false | _ => true end
  | None => false
  end
  || match video s with
     | Some v => match Video.lastFrame v with Some _ => true | None => false end
     | None => false
     end.

(** The effect on [[state.audio, state.video]]:
    [if (audio || video) setCurrentStep(2);
     if (segments.length > 0 || lastFrame) setCurrentStep(3)]. *)
Definition stepEffect (currentStep : Z) (s : AppState) : Z :=
  let currentStep := if hasAsset s then 2 else currentStep in
  if hasResult s then 3 else currentStep.

(** The state and the current step after a sequence of updates, the
    effect running after each (React runs it when one of the two assets
    changed; running it again on unchanged assets leaves the step as it
    is). *)
Fixpoint runFrom (s : AppState) (currentStep : Z) (events : list event)
  : AppState * Z :=
  match events with
  | [] => (s, currentStep)
  | e :: rest =>
      let s' := apply e s in
      runFrom s' (stepEffect currentStep s') rest
  end.

Definition run (events : list event) : AppState * Z :=
  runFrom initialState (stepEffect 1 initialState) events.

End App.

(** An upload of the tone. *)
Definition toneUpload : App.Upload :=
  {| App.uploadId := "a1"; App.uploadFile := []; App.uploadName := "tone.wav";
     App.uploadUrl := "blob:a1" |}.

(* ================================================================== *)
(** * Properties *)

(* ------------------------------------------------------------------ *)
(** *** Arithmetic of the numeric helpers *)

(** Closed comparisons on [Z] and [Q] are settled by evaluation. *)
Ltac by_computation := vm_compute; repeat split; try discriminate.

Lemma wrapSigned_small (w n : Z) :
  0 < w -> - 2 ^ (w - 1) <= n < 2 ^ (w - 1) -> wrapSigned w n = n.
Proof.
  intros Hw Hn. unfold wrapSigned.
  assert (E : 2 ^ w = 2 * 2 ^ (w - 1)).
  { replace w with (Z.succ (w - 1)) at 1 by lia. rewrite Z.pow_succ_r by lia. reflexivity. }
  destruct (Z_lt_le_dec n 0) as [Hneg | Hpos].
  - assert (M : n mod 2 ^ w = n + 2 ^ w).
    { symmetry. apply Z.mod_unique with (q := -1); lia. }
    rewrite M. destruct (Z.ltb_spec (n + 2 ^ w) (2 ^ (w - 1))); lia.
  - rewrite Z.mod_small by lia.
    destruct (Z.ltb_spec n (2 ^ (w - 1))); lia.
Qed.

Lemma clamp_bounds (lo hi x : Q) : (lo <= hi)%Q -> (lo <= clamp lo hi x /\ clamp lo hi x <= hi)%Q.
Proof.
  intros H. unfold clamp. split.
  - apply Q.le_max_l.
  - apply Q.max_lub; [exact H | apply Q.le_min_l].
Qed.

Lemma clamp_id (lo hi x : Q) : (lo <= x)%Q -> (x <= hi)%Q -> (clamp lo hi x == x)%Q.
Proof.
  intros H1 H2. unfold clamp.
  rewrite (Q.min_r hi x) by exact H2. apply Q.max_r. exact H1.
Qed.

Lemma floor_bounds (x : Q) : (inject_Z (floor x) <= x /\ x < inject_Z (floor x + 1))%Q.
Proof. unfold floor. split; [apply Qfloor_le | apply Qlt_floor]. Qed.

Lemma floor_unique (x : Q) (n : Z) :
  (inject_Z n <= x)%Q -> (x < inject_Z (n + 1))%Q -> floor x = n.
Proof.
  intros H1 H2. destruct (floor_bounds x) as [F1 F2].
  assert (A : (inject_Z n < inject_Z (floor x + 1))%Q) by lra.
  assert (B : (inject_Z (floor x) < inject_Z (n + 1))%Q) by lra.
  rewrite <- Zlt_Qlt in A, B. lia.
Qed.

(* ------------------------------------------------------------------ *)
(** *** Little-endian stores and their readers *)

Lemma le32_value (m : Z) :
  0 <= m < 2 ^ 32 ->
  Wav.byteAt m 0 + 256 * Wav.byteAt m 1 + 65536 * Wav.byteAt m 2
  + 16777216 * Wav.byteAt m 3 = m.
Proof.
  intros H. unfold Wav.byteAt.
  change (256 ^ 0) with 1. change (256 ^ 1) with 256.
  change (256 ^ 2) with 65536. change (256 ^ 3) with 16777216.
  change (2 ^ 32) with 4294967296 in H.
  Z.div_mod_to_equations. lia.
Qed.

Lemma le16_value (m : Z) :
  0 <= m < 2 ^ 16 -> Wav.byteAt m 0 + 256 * Wav.byteAt m 1 = m.
Proof.
  intros H. unfold Wav.byteAt.
  change (256 ^ 0) with 1. change (256 ^ 1) with 256.
  change (2 ^ 16) with 65536 in H.
  Z.div_mod_to_equations. lia.
Qed.

Lemma header_length (nc rate len : Z) : List.length (Wav.header nc rate len) = 44%nat.
Proof. reflexivity. Qed.

(** The header fields of the produced file, read back. *)
Lemma bufferToWav_header (b : AudioBuffer) :
  let bytes := Wav.bufferToWav b in
  let nc := numberOfChannels b in
  let dataBytes := length b * nc * 2 in
  firstn 4 bytes = [0x52; 0x49; 0x46; 0x46] /\
  Wav.readU32 bytes 4 = (dataBytes + 36) mod 2 ^ 32 /\
  firstn 8 (skipn 8 bytes) = [0x57; 0x41; 0x56; 0x45; 0x66; 0x6d; 0x74; 0x20] /\
  Wav.readU32 bytes 16 = 16 /\
  Wav.readU16 bytes 20 = 1 /\
  Wav.readU16 bytes 22 = nc mod 2 ^ 16 /\
  Wav.readU32 bytes 24 = sampleRate b mod 2 ^ 32 /\
  Wav.readU32 bytes 28 = (sampleRate b * 2 * nc) mod 2 ^ 32 /\
  Wav.readU16 bytes 32 = (nc * 2) mod 2 ^ 16 /\
  Wav.readU16 bytes 34 = 16 /\
  firstn 4 (skipn 36 bytes) = [0x64; 0x61; 0x74; 0x61] /\
  Wav.readU32 bytes 40 = dataBytes mod 2 ^ 32.
Proof.
  cbv zeta. unfold Wav.bufferToWav, Wav.header, Wav.readU32, Wav.readU16.
  cbv zeta.
  set (nc := numberOfChannels b).
  set (data := flat_map _ _).
  cbn [Wav.setUint32 Wav.setUint16 app nth firstn skipn Nat.add].
  repeat split; try reflexivity.
  - replace (length b * nc * 2 + 44 - 8) with (length b * nc * 2 + 36) by ring.
    apply le32_value. apply Z.mod_pos_bound. reflexivity.
  - apply le16_value. apply Z.mod_pos_bound. reflexivity.
  - apply le32_value. apply Z.mod_pos_bound. reflexivity.
  - apply le32_value. apply Z.mod_pos_bound. reflexivity.
  - apply le16_value. apply Z.mod_pos_bound. reflexivity.
  - replace (length b * nc * 2 + 44 - 40 - 4) with (length b * nc * 2) by ring.
    apply le32_value. apply Z.mod_pos_bound. reflexivity.
Qed.

(* ------------------------------------------------------------------ *)
(** *** Sample conversion *)

Lemma trunc_bounds (x : Q) (lo hi : Z) :
  lo <= 0 <= hi -> (inject_Z lo <= x)%Q -> (x <= inject_Z hi)%Q ->
  lo <= trunc x <= hi.
Proof.
  intros Hz Hlo Hhi. unfold trunc.
  destruct (Qlt_le_dec x 0) as [Hneg | Hpos].
  - split.
    + rewrite <- (Qceiling_Z lo). apply Qceiling_resp_le. exact Hlo.
    + assert (Qceiling x <= Qceiling 0).
      { apply Qceiling_resp_le. lra. }
      change (Qceiling 0) with 0 in H. lia.
  - split.
    + assert (Qfloor 0 <= Qfloor x).
      { apply Qfloor_resp_le. exact Hpos. }
      change (Qfloor 0) with 0 in H. lia.
    + rewrite <- (Qfloor_Z hi). apply Qfloor_resp_le. exact Hhi.
Qed.

Lemma inject_Z_sub (x y : Z) : inject_Z (x - y) = (inject_Z x - inject_Z y)%Q.
Proof.
  unfold Z.sub. rewrite inject_Z_plus, inject_Z_opp. reflexivity.
Qed.

Lemma trunc_near (x : Q) :
  (x - 1 < inject_Z (trunc x) /\ inject_Z (trunc x) < x + 1)%Q.
Proof.
  unfold trunc. destruct (Qlt_le_dec x 0).
  - pose proof (Qle_ceiling x). pose proof (Qceiling_lt x).
    rewrite inject_Z_sub in H0. change (inject_Z 1) with 1%Q in H0. lra.
  - pose proof (Qfloor_le x). pose proof (Qlt_floor x).
    rewrite inject_Z_plus in H0. change (inject_Z 1) with 1%Q in H0. lra.
Qed.

Lemma trunc_toward_zero (x : Q) :
  ((x < 0 -> x <= inject_Z (trunc x)) /\ (0 <= x -> inject_Z (trunc x) <= x))%Q.
Proof.
  unfold trunc. destruct (Qlt_le_dec x 0); split; intros; try lra.
  - apply Qle_ceiling.
  - apply Qfloor_le.
Qed.

(** What line 313-314 store for a number: the clamped sample is scaled by
    32768 below -0.5 and by 32767 from -0.5 on, and truncated. *)
Lemma sampleToInt16_value (v : Q) :
  let c := clamp (-(1)) 1 v in
  Wav.sampleToInt16 (Fin v) =
    trunc (if Qlt_le_dec ((1 # 2) + c) 0 then c * 32768 else c * 32767)
  /\ -32768 <= Wav.sampleToInt16 (Fin v) <= 32767.
Proof.
  cbv zeta. unfold Wav.sampleToInt16, Wav.clampSample, Wav.scaleSample, toInt32.
  destruct (clamp_bounds (-(1)) 1 v) as [Hlo Hhi]; [lra |].
  set (c := clamp (-(1)) 1 v) in *.
  assert (B : -32768 <=
              trunc (if Qlt_le_dec ((1 # 2) + c) 0 then c * 32768 else c * 32767)
              <= 32767).
  { destruct (Qlt_le_dec ((1 # 2) + c) 0).
    - assert (-32768 <= trunc (c * 32768) <= 0); [| lia].
      apply trunc_bounds; [lia | |].
      + change (inject_Z (-32768)) with (-(32768))%Q. lra.
      + change (inject_Z 0) with 0%Q. lra.
    - apply trunc_bounds; [lia | |].
      + change (inject_Z (-32768)) with (-(32768))%Q. lra.
      + change (inject_Z 32767) with 32767%Q. lra. }
  rewrite wrapSigned_small; [auto | lia |].
  change (2 ^ (32 - 1)) with 2147483648. lia.
Qed.

(** The stored value is within one step of the sample on the 32767 scale. *)
Lemma sampleToInt16_error (v : Q) :
  (-(1) <= v)%Q -> (v <= 1)%Q ->
  (Qabs (inject_Z (Wav.sampleToInt16 (Fin v)) / 32767 - v) <= 1 # 32767)%Q.
Proof.
  intros Hlo Hhi.
  destruct (sampleToInt16_value v) as [E _]. cbv zeta in E. rewrite E. clear E.
  assert (C : (clamp (-(1)) 1 v == v)%Q) by (apply clamp_id; assumption).
  set (c := clamp (-(1)) 1 v) in *.
  apply Qabs_Qle_condition.
  destruct (Qlt_le_dec ((1 # 2) + c) 0) as [Hs | Hs].
  - destruct (trunc_toward_zero (c * 32768)) as [T1 _].
    pose proof (trunc_near (c * 32768)) as [_ T2].
    assert (T3 : (c * 32768 <= inject_Z (trunc (c * 32768)))%Q) by (apply T1; lra).
    set (q := inject_Z (trunc (c * 32768))) in *.
    assert (D : (q / 32767 * 32767 == q)%Q) by field.
    set (d := (q / 32767)%Q) in *. lra.
  - pose proof (trunc_near (c * 32767)) as [T1 T2].
    set (q := inject_Z (trunc (c * 32767))) in *.
    assert (D : (q / 32767 * 32767 == q)%Q) by field.
    set (d := (q / 32767)%Q) in *. lra.
Qed.

(** C1 (the code departs from the claim): the serializer scales a sample
    by 32768 only when [0.5 + sample < 0], so a negative sample in
    [-0.5, 0) is scaled by 32767.  For the one-frame mono buffer holding
    -0.25 the stored 16-bit value is -8191, where scaling negative samples
    by 32768 gives -8192; the header of that file is the canonical one. *)
Theorem bufferToWav_small_negative_sample :
  let b := mkAudioBuffer 44100 1 [[Fin (-1 # 4)]] in
  Wav.sampleToInt16 (Fin (-1 # 4)) = -8191 /\
  Wav.specSampleToInt16 (-1 # 4) = -8192 /\
  Wav.readPcm (Wav.bufferToWav b) 0 0 = -8191 /\
  Wav.bufferToWav b =
    [82; 73; 70; 70; 38; 0; 0; 0; 87; 65; 86; 69; 102; 109; 116; 32;
     16; 0; 0; 0; 1; 0; 1; 0; 68; 172; 0; 0; 136; 88; 1; 0; 2; 0; 16; 0;
     100; 97; 116; 97; 2; 0; 0; 0; 1; 224].
Proof.
  vm_compute. repeat split; reflexivity.
Qed.

(* ------------------------------------------------------------------ *)
(** *** Position of a sample in the data section *)

Lemma nth_flat_map_uniform {A : Type} (f : A -> list Z) (k : nat) (d : A) :
  (forall a, List.length (f a) = k) ->
  forall (l : list A) (i r : nat),
    (i < List.length l)%nat -> (r < k)%nat ->
    nth (i * k + r) (flat_map f l) 0 = nth r (f (nth i l d)) 0.
Proof.
  intros Hk l. induction l as [| a l IH]; intros i r Hi Hr.
  - simpl in Hi. lia.
  - simpl flat_map. destruct i as [| i].
    + simpl. rewrite app_nth1; [reflexivity | rewrite Hk; exact Hr].
    + rewrite app_nth2; rewrite Hk; [| lia].
      replace (S i * k + r - k)%nat with (i * k + r)%nat by lia.
      simpl nth. apply IH; [simpl in Hi; lia | exact Hr].
Qed.

Lemma flat_map_length_uniform {A : Type} (f : A -> list Z) (k : nat) :
  (forall a, List.length (f a) = k) ->
  forall l : list A, List.length (flat_map f l) = (List.length l * k)%nat.
Proof.
  intros Hk l. induction l as [| a l IH]; simpl.
  - reflexivity.
  - rewrite length_app, Hk, IH. reflexivity.
Qed.

Lemma writeFrame_length (channels : list (list sample)) (offset : nat) :
  List.length (Wav.writeFrame channels offset) = (List.length channels * 2)%nat.
Proof.
  unfold Wav.writeFrame.
  apply (flat_map_length_uniform
           (fun ch => Wav.setInt16 (Wav.sampleToInt16 (nth offset ch NaN))) 2).
  reflexivity.
Qed.

Lemma bufferToWav_length (b : AudioBuffer) :
  0 <= length b ->
  Z.of_nat (List.length (Wav.bufferToWav b)) = length b * numberOfChannels b * 2 + 44.
Proof.
  intros H. unfold Wav.bufferToWav. cbv zeta.
  rewrite length_app, header_length.
  rewrite (flat_map_length_uniform _ (List.length (channelData b) * 2)).
  - rewrite length_seq. unfold numberOfChannels. lia.
  - intros a. apply writeFrame_length.
Qed.

(** The two bytes of channel [c] in frame [j] hold the converted sample. *)
Lemma readI16_data (b : AudioBuffer) (c j : nat) :
  (c < List.length (channelData b))%nat ->
  (j < Z.to_nat (length b))%nat ->
  Wav.readI16 (Wav.bufferToWav b)
              (44 + j * (List.length (channelData b) * 2) + 2 * c)
  = wrapSigned 16 (Wav.sampleToInt16 (nth j (getChannelData b c) NaN) mod 2 ^ 16).
Proof.
  intros Hc Hj. unfold Wav.readI16, Wav.readU16, Wav.bufferToWav. cbv zeta.
  set (hd := Wav.header _ _ _).
  assert (Hhd : List.length hd = 44%nat) by reflexivity.
  set (nc := List.length (channelData b)).
  rewrite !app_nth2 by (rewrite Hhd; lia).
  rewrite Hhd.
  replace (44 + j * (nc * 2) + 2 * c - 44)%nat with (j * (nc * 2) + (c * 2 + 0))%nat by lia.
  replace (44 + j * (nc * 2) + 2 * c + 1 - 44)%nat with (j * (nc * 2) + (c * 2 + 1))%nat by lia.
  rewrite !(nth_flat_map_uniform (Wav.writeFrame (channelData b)) (nc * 2) 0%nat)
    by (try (intros; apply writeFrame_length); rewrite ?length_seq; lia).
  rewrite seq_nth by lia. simpl (0 + j)%nat.
  unfold Wav.writeFrame.
  rewrite !(nth_flat_map_uniform
              (fun ch => Wav.setInt16 (Wav.sampleToInt16 (nth j ch NaN))) 2 [])
    by (try reflexivity; lia).
  unfold getChannelData.
  cbn [Wav.setInt16 Wav.setUint16 nth].
  f_equal. apply le16_value. apply Z.mod_pos_bound. reflexivity.
Qed.

(* ------------------------------------------------------------------ *)
(** *** The copy loop of [sliceAudio] *)

Lemma store_length (arr : list sample) (i : nat) (x : sample) :
  List.length (store arr i x) = List.length arr.
Proof.
  revert i. induction arr as [| h t IH]; intros [| i]; simpl; auto.
Qed.

Lemma nth_store (arr : list sample) (i k : nat) (x : sample) :
  nth k (store arr i x) NaN =
  if (k =? i)%nat && (i <? List.length arr)%nat then x else nth k arr NaN.
Proof.
  revert i k. induction arr as [| h t IH]; intros i k.
  - simpl. destruct k; rewrite andb_false_r; reflexivity.
  - destruct i as [| i], k as [| k]; simpl; try reflexivity.
    rewrite IH. reflexivity.
Qed.

Lemma copy_fold_length (cd : list sample) (offset : Z) (l : list nat) :
  forall arr, List.length (fold_left (copyStep cd offset) l arr) = List.length arr.
Proof.
  induction l as [| a l IH]; intros arr; simpl.
  - reflexivity.
  - rewrite IH. unfold copyStep.
    destruct (offset + Z.of_nat a <? Z.of_nat (List.length cd)).
    + apply store_length.
    + reflexivity.
Qed.

Lemma copy_fold_nth (cd : list sample) (offset : Z) (n : nat) :
  forall (arr : list sample) (k : nat),
    (k < List.length arr)%nat ->
    nth k (fold_left (copyStep cd offset) (seq 0 n) arr) NaN =
    if (k <? n)%nat && (offset + Z.of_nat k <? Z.of_nat (List.length cd))
    then get cd (offset + Z.of_nat k)
    else nth k arr NaN.
Proof.
  induction n as [| n IH]; intros arr k Hk.
  - reflexivity.
  - rewrite seq_S, fold_left_app. simpl fold_left. simpl (0 + n)%nat.
    unfold copyStep at 1.
    destruct (Z.ltb_spec (offset + Z.of_nat n) (Z.of_nat (List.length cd))) as [Hin | Hout].
    + rewrite nth_store, copy_fold_length.
      destruct (Nat.eqb_spec k n) as [-> | Hne].
      * destruct (Nat.ltb_spec n (List.length arr)); [| lia].
        destruct (Nat.ltb_spec n (S n)); [| lia].
        destruct (Z.ltb_spec (offset + Z.of_nat n) (Z.of_nat (List.length cd))); [| lia].
        reflexivity.
      * simpl andb. rewrite IH by exact Hk.
        destruct (Nat.ltb_spec k n), (Nat.ltb_spec k (S n)); try lia; reflexivity.
    + rewrite IH by exact Hk.
      destruct (Nat.ltb_spec k n), (Nat.ltb_spec k (S n)); try lia; try reflexivity.
      assert (k = n) by lia. subst k.
      destruct (Z.ltb_spec (offset + Z.of_nat n) (Z.of_nat (List.length cd))); [lia |].
      reflexivity.
Qed.

Lemma copyChannel_length (cd arr : list sample) (offset frameCount : Z) :
  List.length (copyChannel cd arr offset frameCount) = List.length arr.
Proof. apply (copy_fold_length cd offset). Qed.

Lemma copyChannel_nth (cd arr : list sample) (offset frameCount : Z) (k : nat) :
  (k < List.length arr)%nat ->
  nth k (copyChannel cd arr offset frameCount) NaN =
  if (Z.of_nat k <? frameCount) && (offset + Z.of_nat k <? Z.of_nat (List.length cd))
  then get cd (offset + Z.of_nat k)
  else nth k arr NaN.
Proof.
  intros Hk. unfold copyChannel.
  rewrite copy_fold_nth by exact Hk.
  destruct (Nat.ltb_spec k (Z.to_nat frameCount)), (Z.ltb_spec (Z.of_nat k) frameCount);
    try lia; reflexivity.
Qed.

(* ------------------------------------------------------------------ *)
(** *** [sliceAudio] *)

Lemma toUint32_small (n : Z) : 0 <= n < 2 ^ 32 -> toUint32 n = n.
Proof. intros H. unfold toUint32. apply Z.mod_small. exact H. Qed.

Lemma createBuffer_ok (nc len rate : Z) :
  1 <= nc < 2 ^ 32 -> 1 <= len < 2 ^ 32 ->
  createBuffer nc len rate =
  Ok {| sampleRate := rate; length := len;
        channelData := repeat (repeat (Fin 0) (Z.to_nat len)) (Z.to_nat nc) |}.
Proof.
  intros Hn Hl. unfold createBuffer.
  rewrite !toUint32_small by lia.
  destruct (Z.eqb_spec nc 0); [lia |].
  destruct (Z.eqb_spec len 0); [lia |].
  reflexivity.
Qed.

Lemma createBuffer_zero_length (nc len rate : Z) :
  toUint32 len = 0 -> createBuffer nc len rate = Err NotSupportedError.
Proof.
  intros H. unfold createBuffer. rewrite H.
  rewrite Z.eqb_refl, orb_true_r. reflexivity.
Qed.

Lemma createBuffer_error (nc len rate : Z) (e : error) :
  createBuffer nc len rate = Err e -> e = NotSupportedError.
Proof.
  unfold createBuffer.
  destruct ((toUint32 nc =? 0) || (toUint32 len =? 0)); intros H; inversion H.
  reflexivity.
Qed.

Lemma sliceAudio_error (b : AudioBuffer) (start end_ : Q) (e : error) :
  sliceAudio b start end_ = Err e -> e = NotSupportedError.
Proof.
  unfold sliceAudio, sliceBuffer, bind.
  destruct (createBuffer _ _ _) as [nb | e'] eqn:E; intros H; inversion H.
  subst. eapply createBuffer_error. exact E.
Qed.

Lemma wrapSigned_int16 (n : Z) :
  -32768 <= n <= 32767 -> wrapSigned 16 (n mod 2 ^ 16) = n.
Proof.
  intros H. unfold wrapSigned. rewrite Z.mod_mod by (compute; discriminate).
  change (wrapSigned 16 n = n). apply wrapSigned_small; [lia |].
  change (2 ^ (16 - 1)) with 32768. lia.
Qed.

Lemma sampleToInt16_range (x : sample) : -32768 <= Wav.sampleToInt16 x <= 32767.
Proof.
  destruct x as [v |].
  - apply sampleToInt16_value.
  - vm_compute. split; discriminate.
Qed.

Lemma floor_nonneg (x : Q) : (0 <= x)%Q -> 0 <= floor x.
Proof.
  intros H. unfold floor. change 0 with (Qfloor 0). apply Qfloor_resp_le. exact H.
Qed.

Lemma nth_repeat_lt {A : Type} (x d : A) (n c : nat) :
  (c < n)%nat -> nth c (repeat x n) d = x.
Proof.
  revert c. induction n as [| n IH]; intros c H; [lia |].
  destruct c; simpl; [reflexivity | apply IH; lia].
Qed.

Lemma sliceBuffer_ok (b : AudioBuffer) (start end_ : Q) :
  let rate := sampleRate b in
  let nc := numberOfChannels b in
  let frameCount := floor ((end_ - start) * inject_Z rate) in
  let offset := floor (start * inject_Z rate) in
  1 <= nc < 2 ^ 32 -> 1 <= frameCount < 2 ^ 32 ->
  sliceBuffer b start end_ =
  Ok {| sampleRate := rate; length := frameCount;
        channelData :=
          map (fun c => copyChannel (getChannelData b c)
                                    (repeat (Fin 0) (Z.to_nat frameCount))
                                    offset frameCount)
              (seq 0 (Z.to_nat nc)) |}.
Proof.
  cbv zeta. intros Hn Hf. unfold sliceBuffer.
  rewrite createBuffer_ok by assumption.
  unfold bind, copyChannels. cbn [sampleRate length channelData].
  f_equal. f_equal.
  apply map_ext_in. intros c Hc. apply in_seq in Hc.
  unfold getChannelData at 2. cbn [channelData].
  rewrite nth_repeat_lt by lia. reflexivity.
Qed.







(* ------------------------------------------------------------------ *)
(** *** [generateSegments] *)

Lemma adjacentPairs_cons2 (x y : Q) (r : list Q) :
  adjacentPairs (x :: y :: r) = (x, y) :: adjacentPairs (y :: r).
Proof. reflexivity. Qed.

Lemma sliceAudio_ok (b : AudioBuffer) (start end_ : Q) :
  1 <= numberOfChannels b < 2 ^ 32 -> 10 <= sampleRate b ->
  ((1 # 10) <= end_ - start)%Q ->
  ((end_ - start) * inject_Z (sampleRate b) < inject_Z (2 ^ 32))%Q ->
  exists bytes, sliceAudio b start end_ = Ok bytes.
Proof.
  intros Hnc Hrate Hlong Hfit.
  assert (R : (10 <= inject_Z (sampleRate b))%Q).
  { change 10%Q with (inject_Z 10). rewrite <- Zle_Qle. exact Hrate. }
  assert (F1 : 1 <= floor ((end_ - start) * inject_Z (sampleRate b))).
  { unfold floor. change 1 with (Qfloor 1). apply Qfloor_resp_le.
    set (d := (end_ - start)%Q) in *. set (r := inject_Z (sampleRate b)) in *.
    assert ((1 # 10) * 10 <= d * r)%Q; [| lra].
    apply Qmult_le_compat_nonneg; split; lra. }
  assert (F2 : floor ((end_ - start) * inject_Z (sampleRate b)) < 2 ^ 32).
  { destruct (floor_bounds ((end_ - start) * inject_Z (sampleRate b))) as [F _].
    rewrite Zlt_Qlt. eapply Qle_lt_trans; [exact F | exact Hfit]. }
  pose proof (sliceBuffer_ok b start end_) as SB. cbv zeta in SB.
  specialize (SB Hnc (conj F1 F2)).
  unfold sliceAudio. rewrite SB. cbn [bind]. eexists. reflexivity.
Qed.

Lemma longEnough_true (p : Q * Q) :
  longEnough p = true <-> ((1 # 10) <= snd p - fst p)%Q.
Proof.
  unfold longEnough. destruct (Qlt_le_dec (snd p - fst p) (1 # 10)); split; intros H;
    try discriminate; try reflexivity; try assumption.
  lra.
Qed.

Lemma segmentLoop_cons2 (b : option AudioBuffer) (x y : Q) (r : list Q) :
  segmentLoop b (x :: y :: r) =
  if Qlt_le_dec (y - x) (1 # 10) then segmentLoop b (y :: r)
  else
    segmentBlob <- sliceAsset b x y ;;
    newSegments <- segmentLoop b (y :: r) ;;
    Ok (mkSegment x y segmentBlob :: newSegments).
Proof. reflexivity. Qed.

Lemma segmentLoop_ok (b : AudioBuffer) (points : list Q) :
  1 <= numberOfChannels b < 2 ^ 32 -> 10 <= sampleRate b ->
  Forall (fun p => ((snd p - fst p) * inject_Z (sampleRate b) < inject_Z (2 ^ 32))%Q)
         (adjacentPairs points) ->
  exists segs,
    segmentLoop (Some b) points = Ok segs /\
    map segRange segs = filter longEnough (adjacentPairs points) /\
    Forall (fun s => sliceAudio b (seg_start s) (seg_end s) = Ok (seg_blob s)) segs.
Proof.
  intros Hnc Hrate. induction points as [| x r IH]; intros Hfit.
  - exists []. repeat split; constructor.
  - destruct r as [| y r].
    + exists []. repeat split; constructor.
    + rewrite adjacentPairs_cons2 in Hfit. inversion Hfit as [| p l Hp Hrest]; subst.
      destruct (IH Hrest) as (segs & Hloop & Hmap & Hblob).
      rewrite adjacentPairs_cons2. cbn [filter].
      rewrite segmentLoop_cons2. unfold longEnough at 1. cbn [fst snd].
      destruct (Qlt_le_dec (y - x) (1 # 10)) as [Hshort | Hlong].
      * exists segs. repeat split; assumption.
      * destruct (sliceAudio_ok b x y Hnc Hrate Hlong Hp) as [bytes Hs].
        exists (mkSegment x y bytes :: segs).
        cbn [sliceAsset]. rewrite Hs. cbn [bind].
        rewrite Hloop. cbn [bind].
        repeat split.
        -- cbn [map]. rewrite Hmap. reflexivity.
        -- constructor; [exact Hs | exact Hblob].
Qed.

Lemma adjacentPairs_firsts (l : list Q) (D : Q) :
  map fst (adjacentPairs (l ++ [D])) = l.
Proof.
  induction l as [| x l IH]; [reflexivity |].
  destruct l as [| y l].
  - reflexivity.
  - change ((x :: y :: l) ++ [D]) with (x :: y :: (l ++ [D])).
    rewrite adjacentPairs_cons2. cbn [map fst]. f_equal. exact IH.
Qed.

Lemma adjacentPairs_ordered (l : list Q) :
  StronglySorted Qle l ->
  forall x D,
    ForallOrdPairs (fun p q => (snd p <= fst q)%Q) (adjacentPairs (x :: l ++ [D])).
Proof.
  induction 1 as [| y l Hs IH Hy]; intros x D.
  - cbn. constructor; constructor.
  - change (x :: (y :: l) ++ [D]) with (x :: y :: (l ++ [D])).
    rewrite adjacentPairs_cons2. constructor.
    + apply Forall_forall. intros q Hq. cbn [snd].
      assert (Hin : In (fst q) (y :: l)).
      { rewrite <- (adjacentPairs_firsts (y :: l) D). apply in_map. exact Hq. }
      destruct Hin as [<- | Hin].
      * apply Qle_refl.
      * rewrite Forall_forall in Hy. apply Hy. exact Hin.
    + apply (IH y D).
Qed.

Lemma ForallOrdPairs_filter {A : Type} (R : A -> A -> Prop) (f : A -> bool) (l : list A) :
  ForallOrdPairs R l -> ForallOrdPairs R (filter f l).
Proof.
  induction 1 as [| a l Ha Hl IH]; cbn.
  - constructor.
  - destruct (f a); [| exact IH].
    constructor; [| exact IH].
    apply Forall_forall. intros x Hx. apply filter_In in Hx.
    rewrite Forall_forall in Ha. apply Ha. apply Hx.
Qed.

Lemma ForallOrdPairs_map {A B : Type} (R : B -> B -> Prop) (f : A -> B) (l : list A) :
  ForallOrdPairs R (map f l) -> ForallOrdPairs (fun a b => R (f a) (f b)) l.
Proof.
  induction l as [| a l IH]; intros H.
  - constructor.
  - inversion H as [| ? ? Ha Hl]; subst. constructor.
    + apply Forall_forall. intros x Hx. rewrite Forall_forall in Ha.
      apply Ha. apply in_map. exact Hx.
    + apply IH. exact Hl.
Qed.

Lemma adjacentPairs_cover (mid : list Q) :
  forall first last t : Q,
    (first <= t)%Q -> (t <= last)%Q ->
    exists p, In p (adjacentPairs (first :: mid ++ [last])) /\
              (fst p <= t)%Q /\ (t <= snd p)%Q.
Proof.
  induction mid as [| m mid IH]; intros first last t H1 H2.
  - exists (first, last). cbn. auto.
  - change (first :: (m :: mid) ++ [last]) with (first :: m :: (mid ++ [last])).
    rewrite adjacentPairs_cons2.
    destruct (Qlt_le_dec m t) as [Hlt | Hle].
    + destruct (IH m last t) as (p & Hin & Hp); [lra | exact H2 |].
      exists p. split; [right; exact Hin | exact Hp].
    + exists (first, m). cbn [fst snd]. split; [left; reflexivity | auto].
Qed.




(* ------------------------------------------------------------------ *)
(** *** The chunk scan of [autoDetectSplits] *)

Lemma skipn_nth_cons {A : Type} (l : list A) (k : nat) (d : A) :
  (k < List.length l)%nat -> skipn k l = nth k l d :: skipn (S k) l.
Proof.
  revert k. induction l as [| a l IH]; intros k H; [simpl in H; lia |].
  destruct k; [reflexivity |].
  simpl. apply IH. simpl in H. lia.
Qed.

Lemma isNumber_nth (data : list sample) (k : nat) :
  Forall isNumber data -> (k < List.length data)%nat ->
  exists v, nth k data NaN = Fin v.
Proof.
  intros HF Hk. rewrite Forall_forall in HF.
  specialize (HF (nth k data NaN) (nth_In _ _ Hk)).
  destruct (nth k data NaN) as [v |]; [exists v; reflexivity | contradiction].
Qed.

Lemma energy_fold (data : list sample) (s : Z) :
  Forall isNumber data -> 0 <= s ->
  forall (n a : nat) (acc : Q),
    (Z.to_nat s + a + n <= List.length data)%nat ->
    fold_left
      (fun energy i =>
         SplitFinder.addSample energy
           (SplitFinder.absSample (get data (s + Z.of_nat i))))
      (seq a n) (Fin acc)
    = Fin (fold_left
             (fun acc x => match x with Fin v => (acc + Qabs v)%Q | NaN => acc end)
             (firstn n (skipn (Z.to_nat s + a) data)) acc).
Proof.
  intros HF Hs n. induction n as [| n IH]; intros a acc Hlen.
  - reflexivity.
  - cbn [seq fold_left].
    rewrite (skipn_nth_cons data (Z.to_nat s + a) NaN) by lia.
    cbn [firstn fold_left].
    assert (G : get data (s + Z.of_nat a) = nth (Z.to_nat s + a) data NaN).
    { unfold get. destruct (Z.ltb_spec (s + Z.of_nat a) 0); [lia |].
      f_equal. lia. }
    rewrite G.
    destruct (isNumber_nth data (Z.to_nat s + a) HF) as [v Hv]; [lia |].
    rewrite Hv. cbn [SplitFinder.absSample SplitFinder.addSample].
    rewrite IH by lia.
    replace (Z.to_nat s + S a)%nat with (S (Z.to_nat s + a)) by lia.
    reflexivity.
Qed.

(** The energy of a complete chunk of numbers is the sum of the absolute
    amplitudes of its samples. *)
Lemma chunkEnergy_sumAbs (data : list sample) (s chunkSize : Z) :
  Forall isNumber data -> 0 <= s -> 0 <= chunkSize ->
  s + chunkSize <= Z.of_nat (List.length data) ->
  SplitFinder.chunkEnergy data s chunkSize = Fin (sumAbs (slice data s chunkSize)).
Proof.
  intros HF Hs Hc Hlen. unfold SplitFinder.chunkEnergy, sumAbs, slice.
  rewrite (energy_fold data s HF Hs) by lia.
  rewrite Nat.add_0_r. reflexivity.
Qed.

Lemma reach_refl (cs s : Z) : reach cs s s.
Proof. exists 0%nat. simpl. lia. Qed.

Lemma reach_step (cs s t : Z) : reach cs (s + cs) t -> reach cs s t.
Proof.
  intros [j Hj]. exists (S j). rewrite Nat2Z.inj_succ. lia.
Qed.

Lemma reach_inv (cs s t : Z) : reach cs s t -> t = s \/ reach cs (s + cs) t.
Proof.
  intros [[| j] Hj].
  - left. simpl in Hj. lia.
  - right. exists j. rewrite Nat2Z.inj_succ in Hj. lia.
Qed.

Lemma reach_ge (cs s t : Z) : 0 <= cs -> reach cs s t -> s <= t.
Proof. intros Hcs [j Hj]. nia. Qed.

Section Scan.

Variable buffer : list sample.
Variables rate cs endSample s0 : Z.
Variable E : Z -> Q.

Hypothesis Hcs : 1 <= cs.
Hypothesis HE :
  forall t, s0 <= t -> t + cs <= Z.of_nat (List.length buffer) ->
            SplitFinder.chunkEnergy buffer t cs = Fin (E t).

Lemma scanChunks_min :
  forall (n : nat) (s : Z) (minE : option Q) (bt : Q) (fuel : nat),
    s0 <= s -> (Z.to_nat (endSample - s) <= n)%nat -> (n < fuel)%nat ->
    exists best,
      SplitFinder.scanChunks fuel buffer rate cs endSample s minE bt = Some best /\
      scanPost E rate cs endSample (Z.of_nat (List.length buffer)) s minE bt best.
Proof.
  induction n as [| n IH]; intros s minE bt fuel Hs Hn Hfuel;
    (destruct fuel as [| fuel]; [lia |]); cbn [SplitFinder.scanChunks].
  - destruct (Z.ltb_spec s endSample) as [Hlt | Hge]; [lia |].
    exists bt. split; [reflexivity |]. left. split; [reflexivity |].
    intros t Hr [Hc _]. apply (reach_ge cs s t) in Hr; lia.
  - destruct (Z.ltb_spec s endSample) as [Hlt | Hge].
    2:{ exists bt. split; [reflexivity |]. left. split; [reflexivity |].
        intros t Hr [Hc _]. apply (reach_ge cs s t) in Hr; lia. }
    rewrite Z.gtb_ltb.
    destruct (Z.ltb_spec (Z.of_nat (List.length buffer)) (s + cs)) as [Hout | Hin].
    { exists bt. split; [reflexivity |]. left. split; [reflexivity |].
      intros t Hr [_ Hc]. apply (reach_ge cs s t) in Hr; lia. }
    rewrite (HE s Hs Hin).
    assert (Hvalid : completeChunk (Z.of_nat (List.length buffer)) cs endSample s)
      by (split; assumption).
    destruct (SplitFinder.energyLt (Fin (E s)) minE) eqn:Elt.
    + destruct (IH (s + cs) (Some (E s)) (SplitFinder.timeOf s rate) fuel)
        as (best & Hrun & Hpost); [lia | lia | lia |].
      exists best. split; [exact Hrun |]. right.
      assert (Hmin : forall m, minE = Some m -> (E s < m)%Q).
      { intros m ->. cbn in Elt. destruct (Qlt_le_dec (E s) m); [assumption | discriminate]. }
      destruct Hpost as [[Hb Hall] | (t & Hr & Hv & Hb & Hm & Hle & Hfirst)].
      * exists s. split; [apply reach_refl |]. split; [exact Hvalid |].
        split; [exact Hb |]. split; [exact Hmin |]. split.
        -- intros t' Hr' Hv'. destruct (reach_inv cs s t' Hr') as [-> | Hr''].
           ++ apply Qle_refl.
           ++ destruct (Hall t' Hr'' Hv') as (m & Hm & Hle).
              inversion Hm; subst. exact Hle.
        -- intros t' Hr' _ Hlt'. apply (reach_ge cs s t') in Hr'; lia.
      * assert (Hts : (E t < E s)%Q) by (apply Hm; reflexivity).
        exists t. split; [apply reach_step; exact Hr |]. split; [exact Hv |].
        split; [exact Hb |]. split.
        -- intros m Hm'. apply Hmin in Hm'. lra.
        -- split.
           ++ intros t' Hr' Hv'. destruct (reach_inv cs s t' Hr') as [-> | Hr''].
              ** lra.
              ** apply Hle; assumption.
           ++ intros t' Hr' Hv' Hlt'. destruct (reach_inv cs s t' Hr') as [-> | Hr''].
              ** exact Hts.
              ** apply Hfirst; assumption.
    + assert (Hmin : exists m, minE = Some m /\ (m <= E s)%Q).
      { destruct minE as [m |]; cbn in Elt; [| discriminate].
        exists m. split; [reflexivity |].
        destruct (Qlt_le_dec (E s) m); [discriminate | assumption]. }
      destruct Hmin as (m & -> & Hms).
      destruct (IH (s + cs) (Some m) bt fuel) as (best & Hrun & Hpost); [lia | lia | lia |].
      exists best. split; [exact Hrun |].
      destruct Hpost as [[Hb Hall] | (t & Hr & Hv & Hb & Hm & Hle & Hfirst)].
      * left. split; [exact Hb |].
        intros t' Hr' Hv'. destruct (reach_inv cs s t' Hr') as [-> | Hr''].
        -- exists m. split; [reflexivity | exact Hms].
        -- apply Hall; assumption.
      * assert (Htm : (E t < m)%Q) by (apply Hm; reflexivity).
        right. exists t. split; [apply reach_step; exact Hr |]. split; [exact Hv |].
        split; [exact Hb |]. split; [exact Hm |]. split.
        -- intros t' Hr' Hv'. destruct (reach_inv cs s t' Hr') as [-> | Hr''].
           ++ lra.
           ++ apply Hle; assumption.
        -- intros t' Hr' Hv' Hlt'. destruct (reach_inv cs s t' Hr') as [-> | Hr''].
           ++ lra.
           ++ apply Hfirst; assumption.
Qed.

End Scan.

(** The chunk loop ends, and returns either the [bestTime] it was entered
    with or the start time of a visited chunk (whatever the samples). *)
Lemma scanChunks_range (buffer : list sample) (rate cs endSample : Z) :
  1 <= cs ->
  forall (n : nat) (s : Z) (minE : option Q) (bt : Q) (fuel : nat),
    (Z.to_nat (endSample - s) <= n)%nat -> (n < fuel)%nat ->
    exists best,
      SplitFinder.scanChunks fuel buffer rate cs endSample s minE bt = Some best /\
      (best = bt \/
       exists t, s <= t < endSample /\ best = SplitFinder.timeOf t rate).
Proof.
  intros Hcs. induction n as [| n IH]; intros s minE bt fuel Hn Hfuel;
    (destruct fuel as [| fuel]; [lia |]); cbn [SplitFinder.scanChunks].
  - destruct (Z.ltb_spec s endSample) as [Hlt | Hge]; [lia |].
    exists bt. auto.
  - destruct (Z.ltb_spec s endSample) as [Hlt | Hge]; [| exists bt; auto].
    destruct (s + cs >? Z.of_nat (List.length buffer)); [exists bt; auto |].
    assert (Hrec : forall minE' bt',
               (bt' = bt \/ bt' = SplitFinder.timeOf s rate) ->
               exists best,
                 SplitFinder.scanChunks fuel buffer rate cs endSample (s + cs) minE' bt'
                 = Some best /\
                 (best = bt \/
                  exists t, s <= t < endSample /\ best = SplitFinder.timeOf t rate)).
    { intros minE' bt' Hbt'.
      destruct (IH (s + cs) minE' bt' fuel) as (best & Hrun & Hbest); [lia | lia |].
      exists best. split; [exact Hrun |].
      destruct Hbest as [-> | (t & Ht & ->)].
      - destruct Hbt' as [-> | ->]; [left; reflexivity |].
        right. exists s. split; [lia | reflexivity].
      - right. exists t. split; [lia | reflexivity]. }
    destruct (SplitFinder.chunkEnergy buffer s cs) as [e |].
    + destruct (SplitFinder.energyLt (Fin e) minE); apply Hrec; auto.
    + apply Hrec; auto.
Qed.

Lemma inject_Z_pos (z : Z) : 0 < z -> (0 < inject_Z z)%Q.
Proof. intros H. change 0%Q with (inject_Z 0). rewrite <- Zlt_Qlt. exact H. Qed.

Lemma inject_Z_ge (a z : Z) : a <= z -> (inject_Z a <= inject_Z z)%Q.
Proof. intros H. rewrite <- Zle_Qle. exact H. Qed.

Lemma floor_mono (x y : Q) : (x <= y)%Q -> floor x <= floor y.
Proof. apply Qfloor_resp_le. Qed.

Lemma chunkSizeOf_pos (rate : Z) : 10 <= rate -> 1 <= SplitFinder.chunkSizeOf rate.
Proof.
  intros H. unfold SplitFinder.chunkSizeOf.
  pose proof (inject_Z_ge 10 rate H) as R. change (inject_Z 10) with 10%Q in R.
  assert (F : floor 1%Q <= floor ((1 # 10) * inject_Z rate)) by (apply floor_mono; lra).
  exact F.
Qed.

Lemma searchWindow_bounds (maxDur : Q) :
  (SplitFinder.searchWindow maxDur <= 5)%Q /\
  (SplitFinder.searchWindow maxDur <= maxDur / 2)%Q.
Proof.
  unfold SplitFinder.searchWindow. split; [apply Q.le_min_l | apply Q.le_min_r].
Qed.

Lemma searchStartSec_bounds (cp maxDur : Q) :
  (cp + 1 <= SplitFinder.searchStartSec cp maxDur)%Q /\
  (cp + maxDur - 5 <= SplitFinder.searchStartSec cp maxDur)%Q.
Proof.
  unfold SplitFinder.searchStartSec.
  pose proof (searchWindow_bounds maxDur) as [W _].
  split.
  - apply Q.le_max_l.
  - eapply Qle_trans; [| apply Q.le_max_r]. lra.
Qed.

(** The search of one iteration visits at most [5 * rate] sample
    positions, so that much fuel (and one more) is enough. *)
Lemma window_samples (rate : Z) (cp maxDur : Q) :
  0 < rate ->
  floor (SplitFinder.searchEndSec cp maxDur * inject_Z rate)
  - floor (SplitFinder.searchStartSec cp maxDur * inject_Z rate) <= 5 * rate.
Proof.
  intros Hr. pose proof (inject_Z_pos rate Hr) as R.
  destruct (searchStartSec_bounds cp maxDur) as [_ S5].
  unfold SplitFinder.searchEndSec.
  set (ws := SplitFinder.searchStartSec cp maxDur) in *.
  destruct (floor_bounds ((cp + maxDur) * inject_Z rate)) as [A _].
  destruct (floor_bounds (ws * inject_Z rate)) as [_ B].
  rewrite inject_Z_plus in B. change (inject_Z 1) with 1%Q in B.
  set (fe := floor ((cp + maxDur) * inject_Z rate)) in *.
  set (fs := floor (ws * inject_Z rate)) in *.
  assert (M : ((cp + maxDur - ws) * inject_Z rate <= 5 * inject_Z rate)%Q).
  { apply Qmult_le_compat_r; lra. }
  assert (C : (inject_Z fe - inject_Z fs < inject_Z (5 * rate + 1))%Q).
  { rewrite inject_Z_plus, inject_Z_mult.
    change (inject_Z 5) with 5%Q. change (inject_Z 1) with 1%Q. lra. }
  rewrite <- inject_Z_sub, <- Zlt_Qlt in C. lia.
Qed.

(* ------------------------------------------------------------------ *)
(** *** One iteration of the split loop *)

Lemma findBest_ok (buffer : list sample) (rate : Z) (maxDur cp : Q) :
  10 <= rate ->
  forall fuel : nat,
    (scanFuel rate <= fuel)%nat ->
    exists best,
      SplitFinder.findBest fuel buffer rate maxDur cp = Some best /\
      (best = (cp + maxDur)%Q \/
       exists t,
         floor (SplitFinder.searchStartSec cp maxDur * inject_Z rate) <= t
         < floor (SplitFinder.searchEndSec cp maxDur * inject_Z rate) /\
         best = SplitFinder.timeOf t rate).
Proof.
  intros Hrate fuel Hfuel. unfold SplitFinder.findBest.
  apply (scanChunks_range buffer rate (SplitFinder.chunkSizeOf rate) _
           (chunkSizeOf_pos rate Hrate) (Z.to_nat (5 * rate))).
  - pose proof (window_samples rate cp maxDur). lia.
  - unfold scanFuel in Hfuel. lia.
Qed.

Lemma timeOf_mul (t rate : Z) :
  0 < rate -> (SplitFinder.timeOf t rate * inject_Z rate == inject_Z t)%Q.
Proof.
  intros H. unfold SplitFinder.timeOf. field.
  pose proof (inject_Z_pos rate H). lra.
Qed.

Lemma progress_bounds (maxDur : Q) :
  (0 < maxDur)%Q ->
  (0 < progress maxDur /\ progress maxDur <= maxDur /\ progress maxDur <= 9 # 10)%Q.
Proof.
  intros H. unfold progress. repeat split.
  - apply Q.min_glb_lt; [exact H | reflexivity].
  - apply Q.le_min_l.
  - apply Q.le_min_r.
Qed.

(** The candidate is later than the cursor by at least [progress], and is
    not later than [cursor + maxDur]. *)
Lemma candidate_bounds (rate : Z) (maxDur cp best : Q) :
  10 <= rate -> (0 < maxDur)%Q ->
  (best = (cp + maxDur)%Q \/
   exists t,
     floor (SplitFinder.searchStartSec cp maxDur * inject_Z rate) <= t
     < floor (SplitFinder.searchEndSec cp maxDur * inject_Z rate) /\
     best = SplitFinder.timeOf t rate) ->
  (cp + progress maxDur <= best /\ best <= cp + maxDur)%Q.
Proof.
  intros Hrate Hmax Hbest.
  destruct (progress_bounds maxDur Hmax) as (P0 & P1 & P2).
  destruct Hbest as [-> | (t & [Ht1 Ht2] & ->)].
  - split; lra.
  - assert (Hr : 0 < rate) by lia.
    pose proof (inject_Z_pos rate Hr) as R.
    pose proof (inject_Z_ge 10 rate Hrate) as R10. change (inject_Z 10) with 10%Q in R10.
    pose proof (timeOf_mul t rate Hr) as TM.
    set (X := SplitFinder.timeOf t rate) in *.
    destruct (searchStartSec_bounds cp maxDur) as [S1 _].
    unfold SplitFinder.searchEndSec in Ht2.
    set (ws := SplitFinder.searchStartSec cp maxDur) in *.
    destruct (floor_bounds (ws * inject_Z rate)) as [_ B].
    destruct (floor_bounds ((cp + maxDur) * inject_Z rate)) as [A _].
    rewrite inject_Z_plus in B. change (inject_Z 1) with 1%Q in B.
    apply inject_Z_ge in Ht1.
    assert (Ht2' : (inject_Z t + 1 <= inject_Z (floor ((cp + maxDur) * inject_Z rate)))%Q).
    { change 1%Q with (inject_Z 1). rewrite <- inject_Z_plus. apply inject_Z_ge. lia. }
    assert (M : ((cp + 1) * inject_Z rate <= ws * inject_Z rate)%Q).
    { apply Qmult_le_compat_r; lra. }
    split.
    + apply Qmult_le_r with (z := inject_Z rate); [exact R |].
      rewrite TM.
      assert (K : (progress maxDur * inject_Z rate <= (9 # 10) * inject_Z rate)%Q).
      { apply Qmult_le_compat_r; lra. }
      lra.
    + apply Qmult_le_r with (z := inject_Z rate); [exact R |].
      rewrite TM. lra.
Qed.

(** On the sample grid the candidate is at least one second after the
    cursor, and is on the grid again. *)
Lemma candidate_on_grid (rate : Z) (maxDur cp best : Q) :
  10 <= rate -> (1 <= maxDur)%Q ->
  onGrid rate cp -> onGrid rate maxDur ->
  (best = (cp + maxDur)%Q \/
   exists t,
     floor (SplitFinder.searchStartSec cp maxDur * inject_Z rate) <= t
     < floor (SplitFinder.searchEndSec cp maxDur * inject_Z rate) /\
     best = SplitFinder.timeOf t rate) ->
  (cp + 1 <= best)%Q /\ onGrid rate best.
Proof.
  intros Hrate Hmax [zc Hzc] [zm Hzm] Hbest.
  assert (Hr : 0 < rate) by lia.
  pose proof (inject_Z_pos rate Hr) as R.
  destruct Hbest as [-> | (t & [Ht1 _] & ->)].
  - split; [lra |]. exists (zc + zm). rewrite inject_Z_plus. lra.
  - pose proof (timeOf_mul t rate Hr) as TM.
    split; [| exists t; exact TM].
    destruct (searchStartSec_bounds cp maxDur) as [S1 _].
    set (ws := SplitFinder.searchStartSec cp maxDur) in *.
    assert (F : floor ((cp + 1) * inject_Z rate) = zc + rate).
    { apply floor_unique; rewrite !inject_Z_plus; change (inject_Z 1) with 1%Q; lra. }
    assert (M : floor ((cp + 1) * inject_Z rate) <= floor (ws * inject_Z rate)).
    { apply floor_mono. apply Qmult_le_compat_r; lra. }
    assert (T : (inject_Z (zc + rate) <= inject_Z t)%Q) by (apply inject_Z_ge; lia).
    rewrite inject_Z_plus in T.
    apply Qmult_le_r with (z := inject_Z rate); [exact R |].
    rewrite TM. lra.
Qed.

(* ------------------------------------------------------------------ *)
(** *** The split loop *)

Lemma splitLoop_acc (buffer : list sample) (rate : Z) (total maxDur : Q) :
  forall (fuel : nat) (cp : Q) (acc : list Q),
    SplitFinder.splitLoop fuel buffer rate total maxDur cp acc =
    match SplitFinder.splitLoop fuel buffer rate total maxDur cp [] with
    | Some l => Some (acc ++ l)
    | None => None
    end.
Proof.
  induction fuel as [| fuel IH]; intros cp acc; [reflexivity |].
  cbn [SplitFinder.splitLoop].
  destruct (Qlt_le_dec (cp + maxDur) total).
  - destruct (SplitFinder.findBest fuel buffer rate maxDur cp) as [best |]; [| reflexivity].
    rewrite (IH best (acc ++ [best])), (IH best ([] ++ [best])).
    destruct (SplitFinder.splitLoop fuel buffer rate total maxDur best []) as [l |];
      [| reflexivity].
    rewrite <- app_assoc. reflexivity.
  - rewrite app_nil_r. reflexivity.
Qed.

Lemma splitLoop_spec (buffer : list sample) (rate : Z) (total maxDur : Q) :
  10 <= rate -> (0 < maxDur)%Q ->
  forall (n : nat) (cp : Q) (fuel : nat),
    (total - cp - maxDur < inject_Z (Z.of_nat n) * progress maxDur)%Q ->
    (n + scanFuel rate < fuel)%nat ->
    exists l,
      SplitFinder.splitLoop fuel buffer rate total maxDur cp [] = Some l /\
      chainFrom (advance maxDur total) cp l /\
      ((1 <= maxDur)%Q -> onGrid rate cp -> onGrid rate maxDur -> chainFrom spaced cp l) /\
      ((total <= cp + maxDur)%Q -> l = []).
Proof.
  intros Hrate Hmax.
  destruct (progress_bounds maxDur Hmax) as (P0 & P1 & P2).
  induction n as [| n IH]; intros cp fuel Hn Hfuel;
    (destruct fuel as [| fuel]; [lia |]); cbn [SplitFinder.splitLoop];
    destruct (Qlt_le_dec (cp + maxDur) total) as [Hgo | Hstop];
    try (exists []; cbn; repeat split; auto; fail).
  - change (inject_Z (Z.of_nat 0)) with 0%Q in Hn. lra.
  - destruct (findBest_ok buffer rate maxDur cp Hrate fuel) as (best & Hrun & Hbest); [lia |].
    rewrite Hrun.
    destruct (candidate_bounds rate maxDur cp best Hrate Hmax Hbest) as [B1 B2].
    rewrite Nat2Z.inj_succ, <- Z.add_1_r, inject_Z_plus in Hn.
    change (inject_Z 1) with 1%Q in Hn.
    destruct (IH best fuel) as (l & Hl & Hchain & Hgrid & _); [lra | lia |].
    rewrite splitLoop_acc, Hl.
    exists (best :: l). split; [reflexivity |]. split; [| split].
    + cbn [chainFrom]. split; [| exact Hchain]. unfold advance. repeat split; lra.
    + intros H1 Gc Gm.
      destruct (candidate_on_grid rate maxDur cp best Hrate H1 Gc Gm Hbest) as [S1 Gb].
      cbn [chainFrom]. split; [exact S1 | apply Hgrid; assumption].
    + intros Hc. lra.
Qed.

Lemma scanChunks_mono (buffer : list sample) (rate cs endSample : Z) :
  forall (fuel fuel' : nat) (s : Z) (minE : option Q) (bt best : Q),
    (fuel <= fuel')%nat ->
    SplitFinder.scanChunks fuel buffer rate cs endSample s minE bt = Some best ->
    SplitFinder.scanChunks fuel' buffer rate cs endSample s minE bt = Some best.
Proof.
  induction fuel as [| fuel IH]; intros fuel' s minE bt best Hle H; [discriminate H |].
  destruct fuel' as [| fuel']; [lia |].
  cbn [SplitFinder.scanChunks] in *.
  destruct (s <? endSample); [| exact H].
  destruct (s + cs >? Z.of_nat (List.length buffer)); [exact H |].
  destruct (SplitFinder.chunkEnergy buffer s cs) as [e |].
  - destruct (SplitFinder.energyLt (Fin e) minE); apply IH; (lia || exact H).
  - apply IH; (lia || exact H).
Qed.

Lemma splitLoop_mono (buffer : list sample) (rate : Z) (total maxDur : Q) :
  forall (fuel fuel' : nat) (cp : Q) (acc l : list Q),
    (fuel <= fuel')%nat ->
    SplitFinder.splitLoop fuel buffer rate total maxDur cp acc = Some l ->
    SplitFinder.splitLoop fuel' buffer rate total maxDur cp acc = Some l.
Proof.
  induction fuel as [| fuel IH]; intros fuel' cp acc l Hle H; [discriminate H |].
  destruct fuel' as [| fuel']; [lia |].
  cbn [SplitFinder.splitLoop] in *.
  destruct (Qlt_le_dec (cp + maxDur) total); [| exact H].
  destruct (SplitFinder.findBest fuel buffer rate maxDur cp) as [best |] eqn:Eb;
    [| discriminate H].
  unfold SplitFinder.findBest in *.
  rewrite (scanChunks_mono _ _ _ _ fuel fuel' _ _ _ best) by (lia || exact Eb).
  apply (IH fuel'); (lia || exact H).
Qed.

Lemma loopSteps_enough (total maxDur : Q) :
  (0 < maxDur)%Q ->
  (total - 0 - maxDur
   < inject_Z (Z.of_nat (loopSteps total maxDur)) * progress maxDur)%Q.
Proof.
  intros Hmax. destruct (progress_bounds maxDur Hmax) as (P0 & _ & _).
  unfold loopSteps.
  set (x := ((total - maxDur) / progress maxDur)%Q).
  assert (Hx : (x * progress maxDur == total - maxDur)%Q).
  { unfold x. field. lra. }
  pose proof (Qle_ceiling x) as C.
  assert (N : (inject_Z (Qceiling x) + 1 <= inject_Z (Z.of_nat (S (Z.to_nat (Qceiling x)))))%Q).
  { change 1%Q with (inject_Z 1). rewrite <- inject_Z_plus. apply inject_Z_ge. lia. }
  assert (L : (x * progress maxDur
               < inject_Z (Z.of_nat (S (Z.to_nat (Qceiling x)))) * progress maxDur)%Q).
  { apply Qmult_lt_compat_r; [exact P0 | lra]. }
  lra.
Qed.

(** The split loop from cursor 0 ends; the fuel [splitFuel] and any
    larger amount give the same list, whose consecutive elements
    [advance]. *)
Lemma findSplits_spec (buffer : list sample) (rate : Z) (total maxDur : Q) :
  10 <= rate -> (0 < maxDur)%Q ->
  exists l,
    (forall fuel, (splitFuel rate total maxDur <= fuel)%nat ->
                  SplitFinder.findSplits fuel buffer rate total maxDur = Some l) /\
    chainFrom (advance maxDur total) 0 l /\
    ((1 <= maxDur)%Q -> onGrid rate maxDur -> chainFrom spaced 0 l) /\
    ((total <= maxDur)%Q -> l = []).
Proof.
  intros Hrate Hmax.
  pose proof (loopSteps_enough total maxDur Hmax) as Hn.
  destruct (splitLoop_spec buffer rate total maxDur Hrate Hmax
              (loopSteps total maxDur) 0 (splitFuel rate total maxDur) Hn)
    as (l & Hl & Hchain & Hgrid & Hempty); [unfold splitFuel; lia |].
  exists l. split; [| split; [exact Hchain | split]].
  - intros fuel Hfuel. unfold SplitFinder.findSplits.
    apply (splitLoop_mono buffer rate total maxDur (splitFuel rate total maxDur));
      assumption.
  - intros H1 Gm. apply Hgrid; [exact H1 | exists 0; ring | exact Gm].
  - intros Ht. apply Hempty. lra.
Qed.

Lemma chainFrom_impl (R R' : Q -> Q -> Prop) :
  (forall c t, R c t -> R' c t) ->
  forall l c, chainFrom R c l -> chainFrom R' c l.
Proof.
  intros HR. induction l as [| t l IH]; intros c H; [exact I |].
  destruct H as [H1 H2]. split; [apply HR; exact H1 | apply IH; exact H2].
Qed.

Lemma chainFrom_lower (l : list Q) :
  forall c, chainFrom Qlt c l -> Forall (fun t => (c < t)%Q) l.
Proof.
  induction l as [| t l IH]; intros c H; [constructor |].
  destruct H as [H1 H2]. constructor; [exact H1 |].
  apply IH in H2. eapply Forall_impl; [| exact H2].
  intros a Ha. cbv beta in *. lra.
Qed.

Lemma chainFrom_sorted (l : list Q) :
  forall c, chainFrom Qlt c l -> StronglySorted Qlt l.
Proof.
  induction l as [| t l IH]; intros c H; [constructor |].
  destruct H as [_ H2]. constructor; [apply (IH t); exact H2 |].
  apply chainFrom_lower. exact H2.
Qed.

Lemma chainFrom_advance (maxDur total : Q) (l : list Q) :
  (0 < maxDur)%Q ->
  forall c,
    chainFrom (advance maxDur total) c l ->
    chainFrom Qlt c l /\ Forall (fun t => (c < t /\ t < total)%Q) l.
Proof.
  intros Hmax c H. destruct (progress_bounds maxDur Hmax) as (P0 & _ & _).
  assert (Hlt : chainFrom Qlt c l).
  { revert H. apply chainFrom_impl. intros c' t (A & _ & _). lra. }
  split; [exact Hlt |].
  pose proof (chainFrom_lower l c Hlt) as Hlow.
  revert c H Hlt Hlow. induction l as [| t l IH]; intros c H Hlt Hlow; [constructor |].
  destruct H as [(A & B & C) H2]. destruct Hlt as [L1 L2].
  inversion Hlow as [| ? ? Ht Hrest]; subst.
  constructor; [split; assumption |].
  specialize (IH t H2 L2 (chainFrom_lower l t L2)).
  eapply Forall_impl; [| exact IH]. intros a [Ha1 Ha2]. split; [lra | exact Ha2].
Qed.





Lemma Forall_isNumber_repeat (v : Q) (n : nat) : Forall isNumber (repeat (Fin v) n).
Proof.
  apply Forall_forall. intros x Hx. apply repeat_spec in Hx. subst x. exact I.
Qed.


(* ------------------------------------------------------------------ *)
(** *** [autoDetectSplits] as an update of the asset *)



(* ------------------------------------------------------------------ *)
(** *** Manual edits of the split list *)

Lemma insertNum_In (x z : Q) (l : list Q) :
  In z (insertNum x l) <-> z = x \/ In z l.
Proof.
  induction l as [| y l IH]; cbn.
  - split; intros [H | H]; auto.
  - destruct (Qlt_le_dec y x); cbn.
    + rewrite IH. split; intros H; intuition.
    + split; intros H; intuition.
Qed.

Lemma insertNum_Forall (P : Q -> Prop) (x : Q) (l : list Q) :
  P x -> Forall P l -> Forall P (insertNum x l).
Proof.
  intros Hx Hl. apply Forall_forall. intros z Hz.
  apply insertNum_In in Hz. destruct Hz as [-> | Hz]; [exact Hx |].
  rewrite Forall_forall in Hl. apply Hl. exact Hz.
Qed.

Lemma sortNum_Forall (P : Q -> Prop) (l : list Q) :
  Forall P l -> Forall P (sortNum l).
Proof.
  induction 1 as [| x l Hx Hl IH]; cbn; [constructor |].
  apply insertNum_Forall; assumption.
Qed.

Lemma insertNum_sorted (x : Q) (l : list Q) :
  StronglySorted Qle l -> StronglySorted Qle (insertNum x l).
Proof.
  induction 1 as [| y l Hs IH Hy]; cbn.
  - constructor; constructor.
  - destruct (Qlt_le_dec y x) as [Hlt | Hle].
    + constructor; [exact IH |].
      apply insertNum_Forall; [lra | exact Hy].
    + constructor; [constructor; assumption |].
      constructor; [exact Hle |]. eapply Forall_impl; [| exact Hy].
      intros a Ha. cbv beta in Ha. lra.
Qed.

Lemma sortNum_sorted (l : list Q) : StronglySorted Qle (sortNum l).
Proof.
  induction l as [| x l IH]; cbn; [constructor | apply insertNum_sorted; exact IH].
Qed.

Lemma insertNum_strict (x : Q) (l : list Q) :
  StronglySorted Qlt l -> Forall (fun y => ~ (x == y)%Q) l ->
  StronglySorted Qlt (insertNum x l).
Proof.
  induction 1 as [| y l Hs IH Hy]; intros Hne; cbn.
  - constructor; constructor.
  - inversion Hne as [| ? ? Hxy Hrest]; subst.
    destruct (Qlt_le_dec y x) as [Hlt | Hle].
    + constructor; [apply IH; exact Hrest |].
      apply insertNum_Forall; [exact Hlt | exact Hy].
    + assert (Hx : (x < y)%Q).
      { destruct (Qlt_le_dec x y) as [H | H]; [exact H |].
        exfalso. apply Hxy. apply Qle_antisym; assumption. }
      constructor; [constructor; assumption |].
      constructor; [exact Hx |]. eapply Forall_impl; [| exact Hy].
      intros a Ha. cbv beta in Ha. lra.
Qed.

Lemma sortNum_snoc_strict (t : Q) (l : list Q) :
  StronglySorted Qlt l -> Forall (fun y => ~ (t == y)%Q) l ->
  StronglySorted Qlt (sortNum (l ++ [t])) /\
  (forall z, In z (sortNum (l ++ [t])) -> In z l \/ z = t).
Proof.
  induction 1 as [| a l Hs IH Ha]; intros Hne.
  - cbn. split; [constructor; constructor |]. intros z [<- | []]. auto.
  - inversion Hne as [| ? ? Hta Hrest]; subst.
    destruct (IH Hrest) as [Hsorted Hmem].
    change (sortNum ((a :: l) ++ [t])) with (insertNum a (sortNum (l ++ [t]))).
    split.
    + apply insertNum_strict; [exact Hsorted |].
      apply Forall_forall. intros z Hz. destruct (Hmem z Hz) as [Hin | ->].
      * rewrite Forall_forall in Ha. specialize (Ha z Hin). cbv beta in Ha.
        intros Heq. rewrite Heq in Ha. apply (Qlt_irrefl z). exact Ha.
      * intros Heq. apply Hta. symmetry. exact Heq.
    + intros z Hz. apply insertNum_In in Hz. destruct Hz as [-> | Hz].
      * left. left. reflexivity.
      * destruct (Hmem z Hz) as [Hin | ->]; [left; right; exact Hin | right; reflexivity].
Qed.

Lemma includes_false (l : list Q) (t : Q) :
  includes l t = false -> Forall (fun y => ~ (t == y)%Q) l.
Proof.
  unfold includes. intros H. apply Forall_forall. intros y Hy Heq.
  assert (E : existsb (Qeq_bool t) l = true).
  { apply existsb_exists. exists y. split; [exact Hy |]. apply Qeq_bool_iff. exact Heq. }
  rewrite E in H. discriminate H.
Qed.

Lemma StronglySorted_filter {A : Type} (R : A -> A -> Prop) (f : A -> bool) (l : list A) :
  StronglySorted R l -> StronglySorted R (filter f l).
Proof.
  induction 1 as [| a l Hs IH Ha]; cbn; [constructor |].
  destruct (f a); [| exact IH].
  constructor; [exact IH |].
  apply Forall_forall. intros x Hx. apply filter_In in Hx.
  rewrite Forall_forall in Ha. apply Ha. apply Hx.
Qed.

Lemma Forall_filter_keep {A : Type} (P : A -> Prop) (f : A -> bool) (l : list A) :
  Forall P l -> Forall P (filter f l).
Proof.
  intros H. apply Forall_forall. intros x Hx. apply filter_In in Hx.
  rewrite Forall_forall in H. apply H. apply Hx.
Qed.




(* ------------------------------------------------------------------ *)
(** *** Waveform columns *)

Lemma Qmin_choice (a d : Q) : Qmin a d = if Qlt_le_dec d a then d else a.
Proof.
  unfold Qmin, GenericMinMax.gmin. destruct (Qlt_le_dec d a) as [H | H].
  - assert (E : (a ?= d)%Q = Gt) by (apply Qgt_alt; exact H).
    rewrite E. reflexivity.
  - destruct (a ?= d)%Q eqn:E; try reflexivity.
    apply Qgt_alt in E. lra.
Qed.

Lemma Qmax_choice (a d : Q) : Qmax a d = if Qlt_le_dec a d then d else a.
Proof.
  unfold Qmax, GenericMinMax.gmax. destruct (Qlt_le_dec a d) as [H | H].
  - assert (E : (a ?= d)%Q = Lt) by (apply Qlt_alt; exact H).
    rewrite E. reflexivity.
  - destruct (a ?= d)%Q eqn:E; try reflexivity.
    apply Qlt_alt in E. lra.
Qed.

Lemma scanStep_value (data : list sample) (i step : Z) (acc : Q * Q) (j : nat) :
  Waveform.scanStep data i step acc j =
  match get data (i * step + Z.of_nat j) with
  | Fin d => (Qmin (fst acc) d, Qmax (snd acc) d)
  | NaN => acc
  end.
Proof.
  unfold Waveform.scanStep. cbv zeta.
  destruct (get data (i * step + Z.of_nat j)) as [d |].
  - rewrite Qmin_choice, Qmax_choice. reflexivity.
  - destruct acc; reflexivity.
Qed.

Lemma scan_fold_window (data : list sample) (i step : Z) :
  0 <= i * step ->
  forall (n a : nat) (acc : Q * Q),
    fold_left (Waveform.scanStep data i step) (seq a n) acc =
    fold_left
      (fun acc x => match x with
                    | Fin d => (Qmin (fst acc) d, Qmax (snd acc) d)
                    | NaN => acc
                    end)
      (firstn n (skipn (Z.to_nat (i * step) + a) data)) acc.
Proof.
  intros Hbase. induction n as [| n IH]; intros a acc; [reflexivity |].
  cbn [seq fold_left]. rewrite scanStep_value, IH.
  replace (Z.to_nat (i * step) + S a)%nat with (S (Z.to_nat (i * step) + a)) by lia.
  assert (G : get data (i * step + Z.of_nat a) = nth (Z.to_nat (i * step) + a) data NaN).
  { unfold get. destruct (Z.ltb_spec (i * step + Z.of_nat a) 0); [lia |]. f_equal. lia. }
  rewrite G.
  destruct (Nat.lt_ge_cases (Z.to_nat (i * step) + a) (List.length data)) as [Hin | Hout].
  - rewrite (skipn_nth_cons data (Z.to_nat (i * step) + a) NaN Hin).
    reflexivity.
  - rewrite (nth_overflow data NaN Hout).
    rewrite !skipn_all2 by lia. rewrite !firstn_nil. reflexivity.
Qed.

Lemma fold_numbers (w : list sample) :
  forall acc : Q * Q,
    fold_left
      (fun acc x => match x with
                    | Fin d => (Qmin (fst acc) d, Qmax (snd acc) d)
                    | NaN => acc
                    end) w acc
    = (fold_left Qmin (Waveform.numbersOf w) (fst acc),
       fold_left Qmax (Waveform.numbersOf w) (snd acc)).
Proof.
  induction w as [| x w IH]; intros [m M]; [reflexivity |].
  destruct x as [d |]; cbn [fold_left Waveform.numbersOf flat_map app].
  - rewrite IH. reflexivity.
  - rewrite IH. reflexivity.
Qed.

(** What the scan of a column holds at its end. *)
Lemma scanColumn_fold (data : list sample) (i step : Z) :
  0 <= i * step ->
  Waveform.scanColumn data i step =
  (fold_left Qmin (Waveform.numbersOf (Waveform.window data i step)) 1%Q,
   fold_left Qmax (Waveform.numbersOf (Waveform.window data i step)) (-(1))%Q).
Proof.
  intros H. unfold Waveform.scanColumn, Waveform.window.
  rewrite (scan_fold_window data i step H), Nat.add_0_r.
  apply fold_numbers.
Qed.

Lemma fold_min_spec (l : list Q) :
  forall a : Q,
    (fold_left Qmin l a <= a)%Q /\
    Forall (fun v => (fold_left Qmin l a <= v)%Q) l /\
    (fold_left Qmin l a = a \/ In (fold_left Qmin l a) l).
Proof.
  induction l as [| v l IH]; intros a.
  - cbn. repeat split; [apply Qle_refl | constructor | left; reflexivity].
  - cbn [fold_left]. destruct (IH (Qmin a v)) as (H1 & H2 & H3).
    pose proof (Q.le_min_l a v). pose proof (Q.le_min_r a v).
    repeat split.
    + lra.
    + constructor; [lra | exact H2].
    + destruct H3 as [H3 | H3]; [| right; right; exact H3].
      rewrite H3, Qmin_choice. destruct (Qlt_le_dec v a); [right; left | left]; reflexivity.
Qed.

Lemma fold_max_spec (l : list Q) :
  forall a : Q,
    (a <= fold_left Qmax l a)%Q /\
    Forall (fun v => (v <= fold_left Qmax l a)%Q) l /\
    (fold_left Qmax l a = a \/ In (fold_left Qmax l a) l).
Proof.
  induction l as [| v l IH]; intros a.
  - cbn. repeat split; [apply Qle_refl | constructor | left; reflexivity].
  - cbn [fold_left]. destruct (IH (Qmax a v)) as (H1 & H2 & H3).
    pose proof (Q.le_max_l a v). pose proof (Q.le_max_r a v).
    repeat split.
    + lra.
    + constructor; [lra | exact H2].
    + destruct H3 as [H3 | H3]; [| right; right; exact H3].
      rewrite H3, Qmax_choice. destruct (Qlt_le_dec a v); [right; left | left]; reflexivity.
Qed.

Lemma numbersOf_In (w : list sample) (v : Q) :
  In v (Waveform.numbersOf w) <-> In (Fin v) w.
Proof.
  unfold Waveform.numbersOf. rewrite in_flat_map. split.
  - intros (x & Hx & Hv). destruct x as [d |]; [| contradiction].
    destruct Hv as [<- | []]. exact Hx.
  - intros H. exists (Fin v). split; [exact H | left; reflexivity].
Qed.

Lemma stepOf_nonneg (data : list sample) (width : Z) :
  0 < width -> 0 <= Waveform.stepOf data width.
Proof.
  intros Hw. unfold Waveform.stepOf, ceil.
  change 0 with (Qceiling 0). apply Qceiling_resp_le.
  apply Qle_shift_div_l; [apply inject_Z_pos; exact Hw |].
  rewrite Qmult_0_l. change 0%Q with (inject_Z 0). apply inject_Z_ge. lia.
Qed.

(** C9 (as amended): with [step = ceil(sampleCount / width)], column [i]
    holds the pair obtained by scanning its window
    [[i*step, i*step+step)], clipped to the buffer end, from the seeds
    [min = 1.0] and [max = -1.0]; for a non-empty window of samples in
    [[-1, 1]] that pair is the true minimum and maximum of the window;
    for a window without samples it is the seed pair [{1, -1}]. *)
Theorem peaks_column (data : list sample) (width : Z) (i : nat) :
  0 < width -> Z.of_nat i < width ->
  let step := Waveform.stepOf data width in
  let w := Waveform.window data (Z.of_nat i) step in
  let column := nth i (Waveform.peaks data width) (0, 0)%Q in
  List.length (Waveform.peaks data width) = Z.to_nat width /\
  column = (fold_left Qmin (Waveform.numbersOf w) 1%Q,
            fold_left Qmax (Waveform.numbersOf w) (-(1))%Q) /\
  (w = [] -> column = (1, -(1))%Q) /\
  (w <> [] -> Forall inUnitRange w ->
   (forall v, In (Fin v) w -> (fst column <= v /\ v <= snd column)%Q) /\
   (exists v, In (Fin v) w /\ (v == fst column)%Q) /\
   (exists v, In (Fin v) w /\ (v == snd column)%Q)).
Proof.
  intros Hw Hi. cbv zeta.
  pose proof (stepOf_nonneg data width Hw) as Hstep.
  set (step := Waveform.stepOf data width) in *.
  set (w := Waveform.window data (Z.of_nat i) step).
  assert (Hcol : nth i (Waveform.peaks data width) (0, 0)%Q =
                 (fold_left Qmin (Waveform.numbersOf w) 1%Q,
                  fold_left Qmax (Waveform.numbersOf w) (-(1))%Q)).
  { unfold Waveform.peaks. fold step.
    rewrite (nth_indep _ (0, 0)%Q (Waveform.scanColumn data (Z.of_nat 0) step))
      by (rewrite length_map, length_seq; lia).
    rewrite (map_nth (fun k => Waveform.scanColumn data (Z.of_nat k) step)).
    rewrite seq_nth by lia. cbn [Nat.add].
    apply scanColumn_fold. nia. }
  split; [unfold Waveform.peaks; rewrite length_map, length_seq; reflexivity |].
  split; [exact Hcol |].
  split; [intros Hempty; rewrite Hcol, Hempty; reflexivity |].
  intros Hne Hunit. rewrite Hcol. cbn [fst snd].
  set (nums := Waveform.numbersOf w).
  destruct (fold_min_spec nums 1%Q) as (Hm1 & Hm2 & Hm3).
  destruct (fold_max_spec nums (-(1))%Q) as (HM1 & HM2 & HM3).
  assert (Hrange : forall v, In v nums -> (-(1) <= v /\ v <= 1)%Q).
  { intros v Hv. apply numbersOf_In in Hv. rewrite Forall_forall in Hunit.
    exact (Hunit (Fin v) Hv). }
  assert (Hsome : exists v, In v nums).
  { destruct w as [| x w'] eqn:Ew; [contradiction Hne; reflexivity |].
    inversion Hunit as [| ? ? Hx _]; subst. destruct x as [v |]; [| contradiction].
    exists v. unfold nums. apply numbersOf_In. left. reflexivity. }
  rewrite Forall_forall in Hm2, HM2.
  split; [| split].
  - intros v Hv. apply numbersOf_In in Hv. split; [apply Hm2 | apply HM2]; exact Hv.
  - destruct Hm3 as [Hm3 | Hm3].
    + destruct Hsome as [v Hv]. exists v. split; [apply numbersOf_In; exact Hv |].
      pose proof (Hm2 v Hv) as A. pose proof (Hrange v Hv) as [_ B].
      rewrite Hm3 in A |- *. lra.
    + exists (fold_left Qmin nums 1%Q). split; [apply numbersOf_In; exact Hm3 | reflexivity].
  - destruct HM3 as [HM3 | HM3].
    + destruct Hsome as [v Hv]. exists v. split; [apply numbersOf_In; exact Hv |].
      pose proof (HM2 v Hv) as A. pose proof (Hrange v Hv) as [B _].
      rewrite HM3 in A |- *. lra.
    + exists (fold_left Qmax nums (-(1))%Q). split; [apply numbersOf_In; exact HM3 | reflexivity].
Qed.

Lemma peaks_column_witness :
  nth 1 (Waveform.peaks (getChannelData toneBuffer 0) 5) (0, 0)%Q = (1 # 4, 1)%Q /\
  nth 4 (Waveform.peaks (getChannelData toneBuffer 0) 5) (0, 0)%Q = (1, -(1))%Q.
Proof.
  destruct (peaks_column (getChannelData toneBuffer 0) 5 1) as (_ & H1 & _);
    [by_computation | by_computation |].
  destruct (peaks_column (getChannelData toneBuffer 0) 5 4) as (_ & _ & H4 & _);
    [by_computation | by_computation |].
  split; [exact H1 | apply H4; reflexivity].
Defined.

(** C9 (the claim as stated fails): sixteen samples drawn on five columns
    give [step = 4]; the window of the last column starts at index 16 and
    holds no sample, and the column is [{1, -1}], not [{0, 0}]. *)
Lemma peaks_empty_column_not_zero :
  Waveform.stepOf (getChannelData toneBuffer 0) 5 = 4 /\
  Waveform.window (getChannelData toneBuffer 0) 4 4 = [] /\
  nth 4 (Waveform.assetPeaks toneBuffer 5) (0, 0)%Q = (1, -(1))%Q /\
  ~ (fst (nth 4 (Waveform.assetPeaks toneBuffer 5) (0, 0)%Q) == 0)%Q.
Proof.
  repeat split. intros H. vm_compute in H. discriminate H.
Qed.

(* ------------------------------------------------------------------ *)
(** *** Frame brightness prober *)

Lemma brightnessLoop_sum (n : nat) :
  forall (data : list Z) (acc : Q),
    List.length data = (4 * n)%nat ->
    exists total,
      Prober.brightnessLoop data (Fin acc) = Fin total /\
      (total == acc + Prober.lumaSum data)%Q.
Proof.
  induction n as [| n IH]; intros data acc Hlen.
  - destruct data; [| discriminate Hlen].
    exists acc. split; [reflexivity |]. cbn. ring.
  - destruct data as [| r [| g [| b [| a rest]]]]; try (cbn in Hlen; lia).
    cbn [Prober.brightnessLoop SplitFinder.addSample].
    destruct (IH rest (acc + inject_Z (r + g + b) / 3)%Q) as (total & Hrun & Hsum).
    { cbn in Hlen. lia. }
    exists total. split; [exact Hrun |].
    rewrite Hsum. cbn [Prober.lumaSum]. unfold Prober.luma. ring.
Qed.

(** On image data the average brightness is a number: the sum of the
    lumas of the pixels divided by their count. *)
Lemma avgBrightness_value (data : list Z) :
  Prober.wfImage data ->
  exists avg,
    Prober.avgBrightness data = Fin avg /\
    (avg == Prober.lumaSum data / inject_Z (Prober.pixelCount data))%Q /\
    0 < Prober.pixelCount data.
Proof.
  intros [Hne Hmod].
  assert (Hn : exists n, List.length data = (4 * n)%nat /\ (0 < n)%nat).
  { exists (List.length data / 4)%nat.
    pose proof (Nat.div_mod_eq (List.length data) 4) as D. rewrite Hmod in D.
    split; [lia |].
    destruct data; [contradiction Hne; reflexivity |]. cbn [List.length] in *. lia. }
  destruct Hn as (n & Hlen & Hpos).
  destruct (brightnessLoop_sum n data 0 Hlen) as (total & Hrun & Hsum).
  assert (Hcount : Prober.pixelCount data = Z.of_nat n).
  { unfold Prober.pixelCount. rewrite Hlen.
    replace (Z.of_nat (4 * n)) with (Z.of_nat n * 4) by lia.
    apply Z.div_mul. discriminate. }
  unfold Prober.avgBrightness, Prober.totalBrightness. rewrite Hrun.
  destruct data as [| x data']; [contradiction Hne; reflexivity |].
  eexists. split; [reflexivity |]. split; [| lia].
  rewrite Hcount, Hsum.
  assert (L : (inject_Z (Z.of_nat (List.length (x :: data'))) == 4 * inject_Z (Z.of_nat n))%Q).
  { rewrite Hlen. rewrite Nat2Z.inj_mul, inject_Z_mult. reflexivity. }
  rewrite L.
  assert (Npos : (0 < inject_Z (Z.of_nat n))%Q) by (apply inject_Z_pos; lia).
  field. lra.
Qed.

Lemma tooDark_false (avg time : Q) :
  Prober.tooDark (Fin avg) time = false <-> (10 <= avg \/ time <= 1 # 2)%Q.
Proof.
  unfold Prober.tooDark, ltNum.
  destruct (Qlt_le_dec avg 10), (Qlt_le_dec (1 # 2) time); cbn; split; intros H;
    try reflexivity; try discriminate; try (left; assumption); try (right; assumption).
  destruct H; lra.
Qed.

Lemma tooDark_true (avg time : Q) :
  Prober.tooDark (Fin avg) time = true <-> (avg < 10 /\ (1 # 2) < time)%Q.
Proof.
  unfold Prober.tooDark, ltNum.
  destruct (Qlt_le_dec avg 10), (Qlt_le_dec (1 # 2) time); cbn; split; intros H;
    try reflexivity; try discriminate; try (split; assumption); destruct H; lra.
Qed.

Lemma probeTime_value (k : nat) :
  forall time, (Prober.probeTime time k == time - inject_Z (Z.of_nat k) * (1 # 10))%Q.
Proof.
  induction k as [| k IH]; intros time.
  - cbn. ring.
  - cbn [Prober.probeTime]. rewrite IH.
    rewrite Nat2Z.inj_succ, <- Z.add_1_r, inject_Z_plus.
    change (inject_Z 1) with 1%Q. ring.
Qed.

Lemma ceiling_unique (y : Q) (n : Z) :
  (inject_Z n - 1 < y)%Q -> (y <= inject_Z n)%Q -> Qceiling y = n.
Proof.
  intros H1 H2.
  pose proof (Qle_ceiling y) as A. pose proof (Qceiling_lt y) as B.
  rewrite inject_Z_sub in B. change (inject_Z 1) with 1%Q in B.
  assert (C : (inject_Z (Qceiling y) < inject_Z (n + 1))%Q).
  { rewrite inject_Z_plus. change (inject_Z 1) with 1%Q. lra. }
  assert (D : (inject_Z n < inject_Z (Qceiling y + 1))%Q).
  { rewrite inject_Z_plus. change (inject_Z 1) with 1%Q. lra. }
  rewrite <- Zlt_Qlt in C, D. lia.
Qed.

Lemma ceiling_step (time : Q) :
  Qceiling ((time - (1 # 10) - (1 # 2)) * 10) = Qceiling ((time - (1 # 2)) * 10) - 1.
Proof.
  apply ceiling_unique.
  - pose proof (Qceiling_lt ((time - (1 # 2)) * 10)) as B.
    rewrite !inject_Z_sub in *. change (inject_Z 1) with 1%Q in *. lra.
  - pose proof (Qle_ceiling ((time - (1 # 2)) * 10)) as A.
    rewrite inject_Z_sub. change (inject_Z 1) with 1%Q. lra.
Qed.

Lemma findGoodFrame_loop (video : Prober.VideoHandle) :
  (forall t, Prober.wfImage (Prober.frameAt video t)) ->
  forall (n : nat) (time : Q),
    (Z.to_nat (Qceiling ((time - (1 # 2)) * 10)) <= n)%nat ->
    exists k : nat,
      (k <= n)%nat /\
      (forall fuel, (k < fuel)%nat ->
         Prober.findGoodFrame fuel video time
         = Prober.accept video (Prober.probeTime time k)) /\
      (exists avg,
          Prober.avgBrightness (Prober.frameAt video (Prober.probeTime time k)) = Fin avg /\
          (10 <= avg \/ Prober.probeTime time k <= 1 # 2)%Q) /\
      (forall j, (j < k)%nat ->
         exists avg,
           Prober.avgBrightness (Prober.frameAt video (Prober.probeTime time j)) = Fin avg /\
           (avg < 10 /\ (1 # 2) < Prober.probeTime time j)%Q).
Proof.
  intros Hwf. induction n as [| n IH]; intros time Hn.
  - destruct (avgBrightness_value _ (Hwf time)) as (avg & Havg & _).
    assert (Hlow : (time <= 1 # 2)%Q).
    { pose proof (Qle_ceiling ((time - (1 # 2)) * 10)) as C.
      assert (Qceiling ((time - (1 # 2)) * 10) <= 0) by lia.
      apply inject_Z_ge in H. change (inject_Z 0) with 0%Q in H. lra. }
    exists 0%nat. split; [lia |]. split; [| split].
    + intros [| fuel] Hf; [lia |]. cbn [Prober.findGoodFrame Prober.probeTime].
      rewrite Havg.
      assert (E : Prober.tooDark (Fin avg) time = false) by (apply tooDark_false; auto).
      rewrite E. reflexivity.
    + exists avg. cbn [Prober.probeTime]. auto.
    + intros j Hj. lia.
  - destruct (avgBrightness_value _ (Hwf time)) as (avg & Havg & _).
    destruct (Prober.tooDark (Fin avg) time) eqn:E.
    + apply tooDark_true in E. destruct E as [E1 E2].
      destruct (IH (time - (1 # 10))%Q) as (k & Hk & Hrun & Hacc & Hrej).
      { rewrite ceiling_step.
        assert (P : 0 < Qceiling ((time - (1 # 2)) * 10)).
        { pose proof (Qle_ceiling ((time - (1 # 2)) * 10)) as A.
          assert (P' : (inject_Z 0 < inject_Z (Qceiling ((time - (1 # 2)) * 10)))%Q).
          { change (inject_Z 0) with 0%Q. lra. }
          rewrite <- Zlt_Qlt in P'. exact P'. }
        lia. }
      exists (S k). split; [lia |]. split; [| split].
      * intros [| fuel] Hf; [lia |]. cbn [Prober.findGoodFrame Prober.probeTime].
        rewrite Havg.
        assert (E : Prober.tooDark (Fin avg) time = true) by (apply tooDark_true; auto).
        rewrite E. apply Hrun. lia.
      * exact Hacc.
      * intros [| j] Hj.
        -- exists avg. cbn [Prober.probeTime]. auto.
        -- cbn [Prober.probeTime]. apply Hrej. lia.
    + exists 0%nat. split; [lia |]. split; [| split].
      * intros [| fuel] Hf; [lia |]. cbn [Prober.findGoodFrame Prober.probeTime].
        rewrite Havg, E. reflexivity.
      * exists avg. cbn [Prober.probeTime]. split; [exact Havg |].
        apply tooDark_false. exact E.
      * intros j Hj. lia.
Qed.



(** The example of the specification: the last half second is black, the
    frame at 1.45 s has luma 50; the search from [duration - 0.05] returns
    the frame of its sixth probe. *)
Example findGoodFrame_fade :
  exists blob t,
    Prober.extractLastFrame 6 fadeVideo = Some (Some (Prober.mkFrame blob t)) /\
    blob = [50; 50; 50; 255] /\ (t == 29 # 20)%Q.
Proof.
  eexists. eexists. split; [vm_compute; reflexivity |]. split; reflexivity.
Qed.

(* ================================================================== *)
(** * Further properties of the components *)

(* ------------------------------------------------------------------ *)
(** *** The WAV file as a whole *)

Lemma byteAt_range (m k : Z) : 0 <= Wav.byteAt m k < 256.
Proof. unfold Wav.byteAt. apply Z.mod_pos_bound. reflexivity. Qed.

Lemma Forall_flat_map {A B : Type} (P : B -> Prop) (f : A -> list B) (l : list A) :
  (forall a, Forall P (f a)) -> Forall P (flat_map f l).
Proof.
  intros H. induction l as [| a l IH]; cbn; [constructor |].
  apply Forall_app. split; [apply H | exact IH].
Qed.

(** X1: the file [bufferToWav] produces is 44 header bytes followed by
    two bytes per sample of every channel, and each of its elements is a
    byte. *)
Theorem bufferToWav_size_and_bytes (b : AudioBuffer) :
  0 <= length b ->
  Z.of_nat (List.length (Wav.bufferToWav b)) = 44 + length b * numberOfChannels b * 2 /\
  Forall (fun x => 0 <= x < 256) (Wav.bufferToWav b).
Proof.
  intros H. split.
  - rewrite bufferToWav_length by exact H. ring.
  - unfold Wav.bufferToWav. cbv zeta. apply Forall_app. split.
    + unfold Wav.header, Wav.setUint32, Wav.setUint16. cbv zeta.
      repeat (apply Forall_app; split);
        repeat (constructor; try apply byteAt_range).
    + apply Forall_flat_map. intros offset. unfold Wav.writeFrame.
      apply Forall_flat_map. intros ch.
      unfold Wav.setInt16, Wav.setUint16. cbv zeta.
      repeat (constructor; try apply byteAt_range).
Qed.

Lemma bufferToWav_size_and_bytes_witness :
  Z.of_nat (List.length (Wav.bufferToWav toneBuffer)) = 76 /\
  Forall (fun x => 0 <= x < 256) (Wav.bufferToWav toneBuffer).
Proof.
  apply (bufferToWav_size_and_bytes toneBuffer). by_computation.
Defined.

(** X2: reading the file back.  For a buffer of at least one channel
    whose sizes fit the header fields, the channel count, the sample rate
    and the frame count read from the header are those of the buffer,
    and the 16-bit value read at frame [j], channel [c] of the
    interleaved data is the converted sample [c][j]. *)
Theorem bufferToWav_read_back (b : AudioBuffer) :
  1 <= numberOfChannels b -> numberOfChannels b * 2 < 2 ^ 16 ->
  0 <= length b -> length b * numberOfChannels b * 2 < 2 ^ 32 ->
  0 <= sampleRate b < 2 ^ 32 ->
  let bytes := Wav.bufferToWav b in
  Wav.readNumChannels bytes = numberOfChannels b /\
  Wav.readU32 bytes 24 = sampleRate b /\
  Wav.readBlockAlign bytes = numberOfChannels b * 2 /\
  Wav.readFrameCount bytes = length b /\
  forall c j : nat,
    Z.of_nat c < numberOfChannels b -> Z.of_nat j < length b ->
    Wav.readPcm bytes c j = Wav.sampleToInt16 (nth j (getChannelData b c) NaN).
Proof.
  intros Hnc1 Hnc2 Hlen1 Hlen2 Hrate. cbv zeta.
  destruct (bufferToWav_header b) as
      (_ & _ & _ & _ & _ & Hrc & Hsr & _ & Hba & _ & _ & Hds).
  rewrite Z.mod_small in Hrc by lia.
  rewrite Z.mod_small in Hsr by lia.
  rewrite Z.mod_small in Hba by lia.
  rewrite Z.mod_small in Hds by nia.
  split; [exact Hrc |]. split; [exact Hsr |]. split; [exact Hba |]. split.
  - unfold Wav.readFrameCount, Wav.readDataSize, Wav.readBlockAlign.
    rewrite Hds, Hba.
    replace (length b * numberOfChannels b * 2) with (length b * (numberOfChannels b * 2))
      by ring.
    apply Z.div_mul. lia.
  - intros c j Hc Hj. unfold Wav.readPcm, Wav.readBlockAlign. rewrite Hba.
    unfold numberOfChannels in *.
    replace (Z.to_nat (Z.of_nat (List.length (channelData b)) * 2))
      with (List.length (channelData b) * 2)%nat by lia.
    rewrite readI16_data by lia.
    apply wrapSigned_int16. apply sampleToInt16_range.
Qed.

Lemma bufferToWav_read_back_witness :
  Wav.readFrameCount (Wav.bufferToWav toneBuffer) = 16 /\
  Wav.readPcm (Wav.bufferToWav toneBuffer) 0 4 = 32767.
Proof.
  destruct (bufferToWav_read_back toneBuffer) as (_ & _ & _ & Hf & Hs).
  - by_computation.
  - by_computation.
  - by_computation.
  - by_computation.
  - by_computation.
  - split; [exact Hf |].
    rewrite (Hs 0%nat 4%nat) by by_computation. reflexivity.
Defined.

(* ------------------------------------------------------------------ *)
(** *** The sample conversion of [bufferToWav] *)

Lemma trunc_mono (x y : Q) : (x <= y)%Q -> trunc x <= trunc y.
Proof.
  intros H. unfold trunc.
  destruct (Qlt_le_dec x 0) as [Hx | Hx], (Qlt_le_dec y 0) as [Hy | Hy].
  - apply Qceiling_resp_le. exact H.
  - assert (A : Qceiling x <= Qceiling 0) by (apply Qceiling_resp_le; lra).
    assert (B : Qfloor 0 <= Qfloor y) by (apply Qfloor_resp_le; exact Hy).
    change (Qceiling 0) with 0 in A. change (Qfloor 0) with 0 in B. lia.
  - lra.
  - apply Qfloor_resp_le. exact H.
Qed.

Lemma trunc_unique (x : Q) (n : Z) :
  (inject_Z n - 1 < x)%Q -> (x < inject_Z n + 1)%Q ->
  ((0 <= x)%Q -> (inject_Z n <= x)%Q) -> ((x < 0)%Q -> (x <= inject_Z n)%Q) ->
  trunc x = n.
Proof.
  intros H1 H2 Hpos Hneg. unfold trunc. destruct (Qlt_le_dec x 0) as [Hx | Hx].
  - apply ceiling_unique; [exact H1 | apply Hneg; exact Hx].
  - apply floor_unique; [apply Hpos; exact Hx |].
    rewrite inject_Z_plus. exact H2.
Qed.

Lemma clamp_mono (lo hi x y : Q) : (x <= y)%Q -> (clamp lo hi x <= clamp lo hi y)%Q.
Proof.
  intros H. unfold clamp.
  apply Q.max_le_compat_l. apply Q.min_le_compat_l. exact H.
Qed.

(** X3: the conversion saturates and keeps the sign.  A sample of 1 or
    more is stored as 32767, a sample of -1 or less as -32768, NaN as 0;
    a sample strictly between -1/32767 and 1/32767 is stored as 0; every
    stored value is a signed 16-bit number of the sign of the sample. *)
Theorem sampleToInt16_saturation :
  (forall v, (1 <= v)%Q -> Wav.sampleToInt16 (Fin v) = 32767) /\
  (forall v, (v <= -(1))%Q -> Wav.sampleToInt16 (Fin v) = -32768) /\
  Wav.sampleToInt16 NaN = 0 /\
  (forall v, (-(1 # 32767) < v)%Q -> (v < 1 # 32767)%Q -> Wav.sampleToInt16 (Fin v) = 0) /\
  (forall v, (0 <= v)%Q -> 0 <= Wav.sampleToInt16 (Fin v) <= 32767) /\
  (forall v, (v <= 0)%Q -> -32768 <= Wav.sampleToInt16 (Fin v) <= 0).
Proof.
  repeat split.
  - intros v Hv. destruct (sampleToInt16_value v) as [E _]. cbv zeta in E. rewrite E.
    assert (C : (clamp (-(1)) 1 v == 1)%Q).
    { unfold clamp. rewrite (Q.min_l 1 v) by exact Hv. apply Q.max_r. lra. }
    set (c := clamp (-(1)) 1 v) in *.
    destruct (Qlt_le_dec ((1 # 2) + c) 0); [lra |].
    apply trunc_unique; change (inject_Z 32767) with 32767%Q; lra.
  - intros v Hv. destruct (sampleToInt16_value v) as [E _]. cbv zeta in E. rewrite E.
    assert (C : (clamp (-(1)) 1 v == -(1))%Q).
    { unfold clamp. rewrite (Q.min_r 1 v) by lra. apply Q.max_l. exact Hv. }
    set (c := clamp (-(1)) 1 v) in *.
    destruct (Qlt_le_dec ((1 # 2) + c) 0); [| lra].
    apply trunc_unique; change (inject_Z (-32768)) with (-(32768))%Q; lra.
  - intros v H1 H2. destruct (sampleToInt16_value v) as [E _]. cbv zeta in E. rewrite E.
    assert (C : (clamp (-(1)) 1 v == v)%Q).
    { apply clamp_id; [| eapply Qle_trans; [apply Qlt_le_weak; exact H2 |]]; lra. }
    set (c := clamp (-(1)) 1 v) in *.
    destruct (Qlt_le_dec ((1 # 2) + c) 0); [lra |].
    apply trunc_unique; change (inject_Z 0) with 0%Q; lra.
  - destruct (sampleToInt16_value v) as [E _]. cbv zeta in E. rewrite E.
    destruct (clamp_bounds (-(1)) 1 v) as [_ Hhi]; [lra |].
    assert (C : (0 <= clamp (-(1)) 1 v)%Q).
    { unfold clamp. eapply Qle_trans; [| apply Q.le_max_r]. apply Q.min_glb; lra. }
    set (c := clamp (-(1)) 1 v) in *.
    destruct (Qlt_le_dec ((1 # 2) + c) 0); [lra |].
    assert (B : 0 <= trunc (c * 32767) <= 32767); [| lia].
    apply trunc_bounds; [lia | |]; [change (inject_Z 0) with 0%Q
                                    | change (inject_Z 32767) with 32767%Q]; lra.
  - apply sampleToInt16_range.
  - apply sampleToInt16_range.
  - destruct (sampleToInt16_value v) as [E _]. cbv zeta in E. rewrite E.
    destruct (clamp_bounds (-(1)) 1 v) as [Hlo _]; [lra |].
    assert (C : (clamp (-(1)) 1 v <= 0)%Q).
    { unfold clamp. apply Q.max_lub; [lra |].
      eapply Qle_trans; [apply Q.le_min_r | exact H]. }
    set (c := clamp (-(1)) 1 v) in *.
    assert (B : -32768 <= trunc (if Qlt_le_dec ((1 # 2) + c) 0
                                 then c * 32768 else c * 32767) <= 0); [| lia].
    destruct (Qlt_le_dec ((1 # 2) + c) 0);
      (apply trunc_bounds; [lia | |];
       [change (inject_Z (-32768)) with (-(32768))%Q | change (inject_Z 0) with 0%Q]; lra).
Qed.

(** X4: the conversion never inverts the order of two samples: a larger
    sample is stored as a larger or equal 16-bit value, across the change
    of scale at -0.5 as well. *)
Theorem sampleToInt16_monotone (x y : Q) :
  (x <= y)%Q -> Wav.sampleToInt16 (Fin x) <= Wav.sampleToInt16 (Fin y).
Proof.
  intros H.
  destruct (sampleToInt16_value x) as [Ex _]. destruct (sampleToInt16_value y) as [Ey _].
  cbv zeta in Ex, Ey. rewrite Ex, Ey.
  pose proof (clamp_mono (-(1)) 1 x y H) as C.
  destruct (clamp_bounds (-(1)) 1 x) as [Lx Hx]; [lra |].
  destruct (clamp_bounds (-(1)) 1 y) as [Ly Hy]; [lra |].
  set (cx := clamp (-(1)) 1 x) in *. set (cy := clamp (-(1)) 1 y) in *.
  apply trunc_mono.
  destruct (Qlt_le_dec ((1 # 2) + cx) 0), (Qlt_le_dec ((1 # 2) + cy) 0); lra.
Qed.

Lemma sampleToInt16_monotone_witness :
  Wav.sampleToInt16 (Fin (-51 # 100)) <= Wav.sampleToInt16 (Fin (-1 # 2)).
Proof.
  apply sampleToInt16_monotone. by_computation.
Defined.

(* ------------------------------------------------------------------ *)
(** *** Slices whose bounds are whole sample positions *)

Lemma slice_length (data : list sample) (a n : Z) :
  List.length (slice data a n)
  = Nat.min (Z.to_nat n) (List.length data - Z.to_nat a).
Proof. unfold slice. rewrite length_firstn, length_skipn. reflexivity. Qed.

Lemma slice_nth (data : list sample) (a n : Z) (k : nat) :
  (k < Z.to_nat n)%nat -> nth k (slice data a n) NaN = nth (Z.to_nat a + k) data NaN.
Proof.
  intros Hk. unfold slice. rewrite nth_firstn.
  destruct (Nat.ltb_spec k (Z.to_nat n)); [| lia].
  apply nth_skipn.
Qed.

(** The copy loop writes the part of the range that exists in the source
    and leaves the zeros of the new buffer after it. *)
Lemma copyChannel_slice (cd : list sample) (a n : Z) :
  0 <= a ->
  copyChannel cd (repeat (Fin 0) (Z.to_nat n)) a n
  = slice cd a n
    ++ repeat (Fin 0) (Z.to_nat n - List.length (slice cd a n)).
Proof.
  intros Ha. apply (nth_ext _ _ NaN NaN).
  - rewrite copyChannel_length, repeat_length, length_app, repeat_length, slice_length. lia.
  - intros k Hk. rewrite copyChannel_length, repeat_length in Hk.
    rewrite copyChannel_nth by (rewrite repeat_length; exact Hk).
    destruct (Z.ltb_spec (Z.of_nat k) n) as [_ | Hge]; [| lia]. cbn [andb].
    destruct (Z.ltb_spec (a + Z.of_nat k) (Z.of_nat (List.length cd))) as [Hin | Hout].
    + rewrite app_nth1 by (rewrite slice_length; lia).
      rewrite slice_nth by exact Hk.
      unfold get. destruct (Z.ltb_spec (a + Z.of_nat k) 0); [lia |].
      f_equal. lia.
    + rewrite app_nth2 by (rewrite slice_length; lia).
      rewrite !nth_repeat_lt; [reflexivity | rewrite slice_length; lia | lia].
Qed.

Lemma floor_of_integer (x : Q) (z : Z) : (x == inject_Z z)%Q -> floor x = z.
Proof.
  intros H. apply floor_unique; rewrite H.
  - apply Qle_refl.
  - rewrite <- Zlt_Qlt. lia.
Qed.

Lemma sliceBuffer_grid (b : AudioBuffer) (start end_ : Q) (a m : Z) :
  1 <= numberOfChannels b < 2 ^ 32 ->
  (start * inject_Z (sampleRate b) == inject_Z a)%Q ->
  (end_ * inject_Z (sampleRate b) == inject_Z m)%Q ->
  0 <= a -> a < m -> m - a < 2 ^ 32 ->
  sliceBuffer b start end_ =
  Ok {| sampleRate := sampleRate b; length := m - a;
        channelData :=
          map (fun c => slice (getChannelData b c) a (m - a)
                        ++ repeat (Fin 0)
                             (Z.to_nat (m - a)
                              - List.length (slice (getChannelData b c) a (m - a))))
              (seq 0 (Z.to_nat (numberOfChannels b))) |}.
Proof.
  intros Hnc Hs He Ha Ham Hfit.
  assert (F1 : floor ((end_ - start) * inject_Z (sampleRate b)) = m - a).
  { apply floor_of_integer. rewrite inject_Z_sub, <- Hs, <- He. ring. }
  assert (F2 : floor (start * inject_Z (sampleRate b)) = a).
  { apply floor_of_integer. exact Hs. }
  pose proof (sliceBuffer_ok b start end_) as SB. cbv zeta in SB.
  rewrite F1, F2 in SB. rewrite SB by lia.
  f_equal. f_equal. apply map_ext. intros c. apply copyChannel_slice. exact Ha.
Qed.

Lemma sliced_channel_nth (cd : list sample) (a n : Z) (k : nat) :
  0 <= a -> (k < Z.to_nat n)%nat ->
  nth k (copyChannel cd (repeat (Fin 0) (Z.to_nat n)) a n) NaN
  = if a + Z.of_nat k <? Z.of_nat (List.length cd)
    then nth (Z.to_nat a + k) cd NaN else Fin 0.
Proof.
  intros Ha Hk. rewrite copyChannel_nth by (rewrite repeat_length; exact Hk).
  destruct (Z.ltb_spec (Z.of_nat k) n); [| lia]. cbn [andb].
  destruct (Z.ltb_spec (a + Z.of_nat k) (Z.of_nat (List.length cd))).
  - unfold get. destruct (Z.ltb_spec (a + Z.of_nat k) 0); [lia |]. f_equal. lia.
  - apply nth_repeat_lt. exact Hk.
Qed.

Lemma sliceBuffer_grid_copy (b : AudioBuffer) (start end_ : Q) (a m : Z) :
  1 <= numberOfChannels b < 2 ^ 32 ->
  (start * inject_Z (sampleRate b) == inject_Z a)%Q ->
  (end_ * inject_Z (sampleRate b) == inject_Z m)%Q ->
  a < m -> m - a < 2 ^ 32 ->
  sliceBuffer b start end_ =
  Ok {| sampleRate := sampleRate b; length := m - a;
        channelData :=
          map (fun c => copyChannel (getChannelData b c)
                                    (repeat (Fin 0) (Z.to_nat (m - a))) a (m - a))
              (seq 0 (Z.to_nat (numberOfChannels b))) |}.
Proof.
  intros Hnc Hs He Ham Hfit.
  assert (F1 : floor ((end_ - start) * inject_Z (sampleRate b)) = m - a).
  { apply floor_of_integer. rewrite inject_Z_sub, <- Hs, <- He. ring. }
  assert (F2 : floor (start * inject_Z (sampleRate b)) = a).
  { apply floor_of_integer. exact Hs. }
  pose proof (sliceBuffer_ok b start end_) as SB. cbv zeta in SB.
  rewrite F1, F2 in SB. apply SB; lia.
Qed.

Lemma map_seq_nth {B : Type} (f : nat -> B) (n c : nat) (d : B) :
  (c < n)%nat -> nth c (map f (seq 0 n)) d = f c.
Proof.
  intros H. rewrite (nth_indep _ d (f 0%nat)) by (rewrite length_map, length_seq; exact H).
  rewrite (map_nth f). rewrite seq_nth by exact H. reflexivity.
Qed.



Lemma map_nth_seq_id {B : Type} (l : list B) (d : B) :
  map (fun c => nth c l d) (seq 0 (List.length l)) = l.
Proof.
  apply (nth_ext _ _ d d).
  - rewrite length_map, length_seq. reflexivity.
  - intros k Hk. rewrite length_map, length_seq in Hk.
    apply (map_seq_nth (fun c => nth c l d)). exact Hk.
Qed.

Lemma sliceBuffer_whole (b : AudioBuffer) :
  wfBuffer b -> 0 < sampleRate b ->
  1 <= numberOfChannels b < 2 ^ 32 -> 1 <= length b < 2 ^ 32 ->
  sliceBuffer b 0 (bufferDuration b) = Ok b.
Proof.
  intros [_ Hwf] Hrate Hnc Hlen.
  rewrite (sliceBuffer_grid b 0 (bufferDuration b) 0 (length b)); try lia.
  - f_equal. destruct b as [rate len chans]. cbn [sampleRate length channelData] in *.
    f_equal; [lia |].
    unfold numberOfChannels, getChannelData. cbn [channelData].
    rewrite Nat2Z.id.
    transitivity (map (fun c => nth c chans []) (seq 0 (List.length chans)));
      [| apply map_nth_seq_id].
    apply map_ext_in. intros c Hc. apply in_seq in Hc.
    rewrite Forall_forall in Hwf.
    assert (Hl : Z.of_nat (List.length (nth c chans [])) = len).
    { apply Hwf. apply nth_In. lia. }
    assert (Hs : slice (nth c chans []) 0 (len - 0) = nth c chans []).
    { unfold slice. cbn [Z.to_nat skipn]. apply firstn_all2. lia. }
    rewrite Hs. replace (Z.to_nat (len - 0) - List.length (nth c chans []))%nat with 0%nat by lia.
    apply app_nil_r.
  - ring.
  - unfold bufferDuration. field.
    pose proof (inject_Z_pos (sampleRate b) Hrate). lra.
Qed.



(* ------------------------------------------------------------------ *)
(** *** Auto-detection followed by slicing *)

(** When the split loop ends, the rest of the recording after the last
    cursor is not longer than [maxDur]. *)
Lemma splitLoop_exit (buffer : list sample) (rate : Z) (total maxDur : Q) :
  forall (fuel : nat) (cp : Q) (l : list Q),
    SplitFinder.splitLoop fuel buffer rate total maxDur cp [] = Some l ->
    (total <= finalCursor cp l + maxDur)%Q.
Proof.
  induction fuel as [| fuel IH]; intros cp l H; [discriminate H |].
  cbn [SplitFinder.splitLoop] in H.
  destruct (Qlt_le_dec (cp + maxDur) total) as [Hgo | Hstop].
  - destruct (SplitFinder.findBest fuel buffer rate maxDur cp) as [best |];
      [| discriminate H].
    rewrite splitLoop_acc in H.
    destruct (SplitFinder.splitLoop fuel buffer rate total maxDur best []) as [l' |] eqn:E;
      [| discriminate H].
    inversion H; subst l. cbn [app finalCursor]. apply (IH best l' E).
  - inversion H; subst l. exact Hstop.
Qed.

Lemma chain_gaps (maxDur total : Q) (l : list Q) :
  forall c,
    chainFrom (advance maxDur total) c l ->
    (total <= finalCursor c l + maxDur)%Q ->
    Forall (fun p => (snd p - fst p <= maxDur)%Q) (adjacentPairs (c :: l ++ [total])).
Proof.
  induction l as [| t l IH]; intros c Hchain Hexit.
  - cbn in *. constructor; [cbn; lra | constructor].
  - destruct Hchain as [(A & B & C) Hrest]. cbn [finalCursor] in Hexit.
    change (c :: (t :: l) ++ [total]) with (c :: t :: (l ++ [total])).
    rewrite adjacentPairs_cons2. constructor; [cbn; lra |].
    apply IH; assumption.
Qed.



(* ------------------------------------------------------------------ *)
(** *** Adding, removing and moving one split *)

Lemma insertNum_perm (x : Q) (l : list Q) : Permutation (insertNum x l) (x :: l).
Proof.
  induction l as [| y l IH]; cbn; [apply Permutation_refl |].
  destruct (Qlt_le_dec y x); [| apply Permutation_refl].
  eapply Permutation_trans; [apply perm_skip; exact IH | apply perm_swap].
Qed.

Lemma sortNum_perm (l : list Q) : Permutation (sortNum l) l.
Proof.
  induction l as [| x l IH]; cbn; [constructor |].
  eapply Permutation_trans; [apply insertNum_perm | apply perm_skip; exact IH].
Qed.

Lemma insertNum_head (x : Q) (l : list Q) :
  Forall (fun y => (x <= y)%Q) l -> insertNum x l = x :: l.
Proof.
  intros H. destruct l as [| y l]; [reflexivity |].
  inversion H as [| ? ? Hy _]; subst. cbn.
  destruct (Qlt_le_dec y x); [lra | reflexivity].
Qed.

Lemma sortNum_sorted_id (l : list Q) : StronglySorted Qle l -> sortNum l = l.
Proof.
  induction 1 as [| x l Hs IH Hx]; [reflexivity |].
  change (sortNum (x :: l)) with (insertNum x (sortNum l)).
  rewrite IH. apply insertNum_head. exact Hx.
Qed.

Lemma filter_insertNum_sorted (p : Q -> bool) (x : Q) (l : list Q) :
  StronglySorted Qle l -> p x = true ->
  filter p (insertNum x l) = insertNum x (filter p l).
Proof.
  intros Hs Hp. induction Hs as [| y l Hs IH Hy]; cbn.
  - rewrite Hp. reflexivity.
  - destruct (Qlt_le_dec y x) as [Hlt | Hle]; cbn.
    + destruct (p y); [| exact IH]. cbn.
      destruct (Qlt_le_dec y x); [| lra]. rewrite IH. reflexivity.
    + rewrite Hp. destruct (p y); cbn.
      * destruct (Qlt_le_dec y x); [lra | reflexivity].
      * symmetry. apply insertNum_head. apply Forall_filter_keep.
        eapply Forall_impl; [| exact Hy]. intros a Ha. cbv beta in Ha. lra.
Qed.

Lemma filter_all_true {A : Type} (p : A -> bool) (l : list A) :
  Forall (fun y => p y = true) l -> filter p l = l.
Proof.
  induction 1 as [| y l Hy Hl IH]; cbn; [reflexivity |].
  rewrite Hy, IH. reflexivity.
Qed.

Lemma differs_true (t y : Q) : ~ (t == y)%Q -> negb (Qeq_bool y t) = true.
Proof.
  intros H. destruct (Qeq_bool y t) eqn:E; [| reflexivity].
  apply Qeq_bool_iff in E. exfalso. apply H. symmetry. exact E.
Qed.

Lemma includes_true (l : list Q) (t : Q) : In t l -> includes l t = true.
Proof.
  intros H. unfold includes. apply existsb_exists. exists t.
  split; [exact H | apply Qeq_bool_iff; reflexivity].
Qed.

Lemma asset_eta (asset : AudioAsset) : setSplitPoints asset (splitPoints asset) = asset.
Proof. destruct asset. reflexivity. Qed.





Lemma includes_false_iff (l : list Q) (t : Q) :
  includes l t = false <-> Forall (fun y => ~ (t == y)%Q) l.
Proof.
  split; [apply includes_false |].
  intros H. unfold includes. destruct (existsb (Qeq_bool t) l) eqn:E; [| reflexivity].
  apply existsb_exists in E. destruct E as (y & Hy & Hq).
  rewrite Forall_forall in H. apply Qeq_bool_iff in Hq.
  exfalso. exact (H y Hy Hq).
Qed.



(* ------------------------------------------------------------------ *)
(** *** The columns of the waveform as a whole *)

Lemma firstn_add_skipn {A : Type} (a b : nat) :
  forall l : list A, firstn (a + b) l = firstn a l ++ firstn b (skipn a l).
Proof.
  induction a as [| a IH]; intros l; [reflexivity |].
  destruct l as [| x l]; cbn.
  - rewrite firstn_nil. reflexivity.
  - rewrite IH. reflexivity.
Qed.

Lemma columns_prefix (data : list sample) (step : Z) :
  0 <= step ->
  forall n : nat,
    List.concat (map (fun i => Waveform.window data (Z.of_nat i) step) (seq 0 n))
    = firstn (n * Z.to_nat step) data.
Proof.
  intros Hstep. induction n as [| n IH]; [reflexivity |].
  rewrite seq_S, map_app, concat_app, IH. cbn [map List.concat Nat.add].
  rewrite app_nil_r. unfold Waveform.window.
  replace (Z.to_nat (Z.of_nat n * step)) with (n * Z.to_nat step)%nat by nia.
  replace (S n * Z.to_nat step)%nat with (n * Z.to_nat step + Z.to_nat step)%nat by lia.
  symmetry. apply firstn_add_skipn.
Qed.

Lemma step_covers (data : list sample) (width : Z) :
  0 < width ->
  Z.of_nat (List.length data) <= width * Waveform.stepOf data width.
Proof.
  intros Hw. unfold Waveform.stepOf, ceil.
  set (len := Z.of_nat (List.length data)).
  pose proof (inject_Z_pos width Hw) as W.
  pose proof (Qle_ceiling (inject_Z len / inject_Z width)) as C.
  assert (E : (inject_Z len / inject_Z width * inject_Z width == inject_Z len)%Q)
    by (field; lra).
  assert (M : (inject_Z len / inject_Z width * inject_Z width
               <= inject_Z (Qceiling (inject_Z len / inject_Z width)) * inject_Z width)%Q).
  { apply Qmult_le_compat_r; [exact C | lra]. }
  rewrite E, <- inject_Z_mult, <- Zle_Qle in M. lia.
Qed.



Lemma window_In (data : list sample) (i step : Z) (x : sample) :
  In x (Waveform.window data i step) -> In x data.
Proof.
  unfold Waveform.window. intros H.
  set (k := Z.to_nat (i * step)) in *. set (n := Z.to_nat step) in *.
  rewrite <- (firstn_skipn k data). apply in_or_app. right.
  rewrite <- (firstn_skipn n (skipn k data)). apply in_or_app. left. exact H.
Qed.

Lemma peaks_nth (data : list sample) (width : Z) (i : nat) :
  0 < width -> Z.of_nat i < width ->
  nth i (Waveform.peaks data width) (0, 0)%Q =
  (fold_left Qmin
     (Waveform.numbersOf (Waveform.window data (Z.of_nat i) (Waveform.stepOf data width)))
     1%Q,
   fold_left Qmax
     (Waveform.numbersOf (Waveform.window data (Z.of_nat i) (Waveform.stepOf data width)))
     (-(1))%Q).
Proof.
  intros Hw Hi. pose proof (stepOf_nonneg data width Hw) as Hstep.
  unfold Waveform.peaks.
  rewrite (map_seq_nth
             (fun k => Waveform.scanColumn data (Z.of_nat k) (Waveform.stepOf data width)))
    by lia.
  apply scanColumn_fold. nia.
Qed.

(** X13: the strokes stay on the canvas.  For samples in [[-1, 1]] and a
    canvas of non-negative height both ends of every column's stroke lie
    between 0 and the height; the stroke of a column with samples runs
    from its minimum to its maximum, and the stroke of a column without
    samples runs over the whole height. *)
Theorem drawWaveform_inside_canvas
        (data : list sample) (width : Z) (height : Q) (i : nat) :
  0 < width -> Z.of_nat i < width -> (0 <= height)%Q ->
  Forall inUnitRange data ->
  let line := nth i (drawWaveform data width height) (0, 0)%Q in
  let w := Waveform.window data (Z.of_nat i) (Waveform.stepOf data width) in
  (0 <= fst line /\ fst line <= height)%Q /\
  (0 <= snd line /\ snd line <= height)%Q /\
  (w <> [] -> (fst line <= snd line)%Q) /\
  (w = [] -> (fst line == height)%Q /\ (snd line == 0)%Q).
Proof.
  intros Hw Hi Hh Hunit. cbv zeta.
  assert (Hline : nth i (drawWaveform data width height) (0, 0)%Q
                  = columnLine height (nth i (Waveform.peaks data width) (0, 0)%Q)).
  { unfold drawWaveform.
    rewrite (nth_indep _ (0, 0)%Q (columnLine height (0, 0)%Q)).
    - apply map_nth.
    - rewrite length_map. unfold Waveform.peaks. rewrite length_map, length_seq. lia. }
  rewrite Hline, (peaks_nth data width i Hw Hi).
  set (w := Waveform.window data (Z.of_nat i) (Waveform.stepOf data width)).
  set (nums := Waveform.numbersOf w).
  assert (Hrange : forall v, In v nums -> (-(1) <= v /\ v <= 1)%Q).
  { intros v Hv. apply numbersOf_In in Hv. apply window_In in Hv.
    rewrite Forall_forall in Hunit. exact (Hunit (Fin v) Hv). }
  destruct (fold_min_spec nums 1%Q) as (Hm1 & Hm2 & Hm3).
  destruct (fold_max_spec nums (-(1))%Q) as (HM1 & HM2 & HM3).
  set (mn := fold_left Qmin nums 1%Q) in *.
  set (mx := fold_left Qmax nums (-(1))%Q) in *.
  assert (Bmn : (-(1) <= mn /\ mn <= 1)%Q).
  { destruct Hm3 as [E | E]; [rewrite E; lra | apply Hrange; exact E]. }
  assert (Bmx : (-(1) <= mx /\ mx <= 1)%Q).
  { destruct HM3 as [E | E]; [rewrite E; lra | apply Hrange; exact E]. }
  unfold columnLine. cbv zeta. cbn [fst snd].
  assert (Hamp : (0 <= height / 2)%Q) by (apply Qle_shift_div_l; lra).
  assert (Hfull : (2 * (height / 2) == height)%Q) by field.
  set (amp := (height / 2)%Q) in *.
  assert (P1 : (0 <= (1 + mn) * amp)%Q) by (apply Qmult_le_0_compat; lra).
  assert (P2 : ((1 + mn) * amp <= 2 * amp)%Q) by (apply Qmult_le_compat_r; lra).
  assert (P3 : (0 <= (1 + mx) * amp)%Q) by (apply Qmult_le_0_compat; lra).
  assert (P4 : ((1 + mx) * amp <= 2 * amp)%Q) by (apply Qmult_le_compat_r; lra).
  split; [split; lra |]. split; [split; lra |]. split.
  - intros Hne. apply Qmult_le_compat_r; [| exact Hamp].
    destruct w as [| x w'] eqn:Ew; [contradiction Hne; reflexivity |].
    assert (Hx : In x data) by (apply (window_In data (Z.of_nat i)
                                       (Waveform.stepOf data width)); fold w; rewrite Ew; left; reflexivity).
    rewrite Forall_forall in Hunit. specialize (Hunit x Hx).
    destruct x as [v |]; [| contradiction].
    assert (Hv : In v nums) by (unfold nums; apply numbersOf_In; left; reflexivity).
    rewrite Forall_forall in Hm2, HM2.
    pose proof (Hm2 v Hv). pose proof (HM2 v Hv). lra.
  - intros Hempty. unfold mn, mx, nums. rewrite Hempty. cbn. split.
    + rewrite <- Hfull. unfold amp. ring.
    + ring.
Qed.

Lemma drawWaveform_inside_canvas_witness :
  (fst (nth 1 (drawWaveform (getChannelData toneBuffer 0) 5 32) (0, 0)%Q) <= 32)%Q /\
  (fst (nth 4 (drawWaveform (getChannelData toneBuffer 0) 5 32) (0, 0)%Q) == 32)%Q.
Proof.
  destruct (drawWaveform_inside_canvas (getChannelData toneBuffer 0) 5 32 1)
    as ((_ & H1) & _).
  - by_computation.
  - by_computation.
  - by_computation.
  - repeat constructor; by_computation.
  - destruct (drawWaveform_inside_canvas (getChannelData toneBuffer 0) 5 32 4)
      as (_ & _ & _ & H4).
    + by_computation.
    + by_computation.
    + by_computation.
    + repeat constructor; by_computation.
    + split; [exact H1 | apply H4; reflexivity].
Defined.

(* ================================================================== *)
(** ** The frame extraction handler *)

Lemma lumaSum_bounds (lo hi : Z) (n : nat) :
  forall data : list Z,
    List.length data = (4 * n)%nat ->
    coloursWithin lo hi data ->
    (inject_Z lo * inject_Z (Z.of_nat n) <= Prober.lumaSum data
     /\ Prober.lumaSum data <= inject_Z hi * inject_Z (Z.of_nat n))%Q.
Proof.
  induction n as [| n IH]; intros data Hlen Hall.
  - destruct data; [| discriminate]. cbn [Prober.lumaSum].
    change (inject_Z (Z.of_nat 0)) with 0%Q. split; lra.
  - destruct data as [| r [| g [| b [| a rest]]]];
      try (exfalso; cbn [List.length] in Hlen; lia).
    cbn [List.length] in Hlen.
    assert (Hrest : List.length rest = (4 * n)%nat) by lia.
    destruct Hall as ((Hr & Hg & Hb) & Hall4).
    destruct (IH rest Hrest Hall4) as [IHlo IHhi].
    cbn [Prober.lumaSum]. unfold Prober.luma.
    rewrite Nat2Z.inj_succ. unfold Z.succ. rewrite inject_Z_plus.
    change (inject_Z 1) with 1%Q.
    assert (L : (inject_Z lo <= inject_Z (r + g + b) / 3)%Q).
    { apply Qle_shift_div_l; [lra |].
      assert (H3 : (inject_Z lo * 3 == inject_Z (3 * lo))%Q)
        by (rewrite inject_Z_mult; ring).
      rewrite H3. apply inject_Z_ge. lia. }
    assert (U : (inject_Z (r + g + b) / 3 <= inject_Z hi)%Q).
    { apply Qle_shift_div_r; [lra |].
      assert (H3 : (inject_Z hi * 3 == inject_Z (3 * hi))%Q)
        by (rewrite inject_Z_mult; ring).
      rewrite H3. apply inject_Z_ge. lia. }
    split; lra.
Qed.

Lemma avgBrightness_between (lo hi : Z) (data : list Z) :
  Prober.wfImage data ->
  coloursWithin lo hi data ->
  exists avg,
    Prober.avgBrightness data = Fin avg /\
    (inject_Z lo <= avg /\ avg <= inject_Z hi)%Q.
Proof.
  intros Hwf Hall.
  destruct (avgBrightness_value data Hwf) as (avg & Havg & Hval & Hpos).
  exists avg. split; [exact Havg |].
  destruct Hwf as [Hne Hmod].
  assert (Hn : List.length data = (4 * (List.length data / 4))%nat).
  { pose proof (Nat.div_mod_eq (List.length data) 4). lia. }
  destruct (lumaSum_bounds lo hi _ data Hn Hall) as [Blo Bhi].
  assert (Hpc : Prober.pixelCount data = Z.of_nat (List.length data / 4)).
  { unfold Prober.pixelCount. rewrite Nat2Z.inj_div. reflexivity. }
  rewrite <- Hpc in Blo, Bhi.
  pose proof (inject_Z_pos _ Hpos) as Hq.
  set (cnt := inject_Z (Prober.pixelCount data)) in *.
  rewrite Hval. split.
  - apply Qle_shift_div_l; [exact Hq | exact Blo].
  - apply Qle_shift_div_r; [exact Hq | exact Bhi].
Qed.

(** X14: the brightness measure stays in the range of the colour
    values and ignores alpha.  For an image of whole pixels whose red,
    green and blue values lie between [lo] and [hi], whatever the alpha
    values, the average brightness is a number between [lo] and [hi]
    (in [[0, 255]] for byte values); a frame with all colour values
    from 10 up is never judged too dark, and one with all colour values
    below 10 is judged too dark at every time after 0.5 s. *)
Theorem avgBrightness_range (lo hi : Z) (data : list Z) :
  Prober.wfImage data ->
  coloursWithin lo hi data ->
  exists avg,
    Prober.avgBrightness data = Fin avg /\
    (inject_Z lo <= avg /\ avg <= inject_Z hi)%Q /\
    (10 <= lo -> forall time, Prober.tooDark (Fin avg) time = false) /\
    (hi < 10 -> forall time, ((1 # 2) < time)%Q ->
                             Prober.tooDark (Fin avg) time = true).
Proof.
  intros Hwf Hall.
  destruct (avgBrightness_between lo hi data Hwf Hall) as (avg & Havg & Blo & Bhi).
  exists avg. split; [exact Havg |]. split; [split; assumption |]. split.
  - intros Hlo time. apply tooDark_false. left.
    pose proof (inject_Z_ge 10 lo Hlo) as H. change (inject_Z 10) with 10%Q in H. lra.
  - intros Hhi time Htime. apply tooDark_true. split; [| exact Htime].
    assert (H : (inject_Z hi < inject_Z 10)%Q) by (rewrite <- Zlt_Qlt; exact Hhi).
    change (inject_Z 10) with 10%Q in H. lra.
Qed.

Lemma avgBrightness_range_witness :
  exists avg,
    Prober.avgBrightness [12; 200; 40; 255; 90; 10; 10; 0] = Fin avg /\
    (0 <= avg /\ avg <= 255)%Q.
Proof.
  destruct (avgBrightness_range 0 255 [12; 200; 40; 255; 90; 10; 10; 0])
    as (avg & Havg & Hrange & _).
  - by_computation.
  - cbn. lia.
  - exists avg. split; [exact Havg | exact Hrange].
Defined.

Lemma extract_search (video : Prober.VideoHandle) :
  (forall t, Prober.wfImage (Prober.frameAt video t)) ->
  exists (n k : nat),
    let start := (Prober.videoDuration video - (1 # 20))%Q in
    let t := Prober.probeTime start k in
    (forall fuel, (n < fuel)%nat ->
       Prober.extractLastFrame fuel video = Prober.accept video t) /\
    (t <= start)%Q /\
    ((start <= 1 # 2)%Q -> t = start) /\
    (((1 # 2) < start)%Q -> ((2 # 5) < t)%Q) /\
    (exists avg,
        Prober.avgBrightness (Prober.frameAt video t) = Fin avg /\
        (10 <= avg \/ t <= 1 # 2)%Q) /\
    (k <> 0%nat ->
     exists avg,
       Prober.avgBrightness (Prober.frameAt video start) = Fin avg /\ (avg < 10)%Q).
Proof.
  intros Hwf.
  set (start := (Prober.videoDuration video - (1 # 20))%Q).
  set (n := Z.to_nat (Qceiling ((start - (1 # 2)) * 10))).
  destruct (findGoodFrame_loop video Hwf n start (Nat.le_refl n))
    as (k & Hk & Hrun & Hacc & Hrej).
  exists n, k. cbv zeta. fold start.
  pose proof (probeTime_value k start) as Hval.
  assert (Hk0 : (0 <= inject_Z (Z.of_nat k))%Q).
  { change 0%Q with (inject_Z 0). apply inject_Z_ge. lia. }
  split; [| split; [| split; [| split; [| split]]]].
  - intros fuel Hfuel. unfold Prober.extractLastFrame. fold start.
    apply Hrun. lia.
  - rewrite Hval. nra.
  - intros Hshort. destruct k as [| k']; [reflexivity |].
    destruct (Hrej 0%nat) as (avg & _ & _ & Hgt); [lia |].
    cbn [Prober.probeTime] in Hgt. lra.
  - intros Hlong. destruct k as [| k'].
    + cbn [Prober.probeTime]. lra.
    + destruct (Hrej k') as (avg & _ & _ & Hgt); [lia |].
      pose proof (probeTime_value k' start) as Hval'.
      rewrite Hval' in Hgt. rewrite Hval.
      rewrite Nat2Z.inj_succ. unfold Z.succ. rewrite inject_Z_plus.
      change (inject_Z 1) with 1%Q. lra.
  - exact Hacc.
  - intros Hne. destruct (Hrej 0%nat) as (avg & Havg & Hlt & _); [lia |].
    exists avg. split; [exact Havg | exact Hlt].
Qed.

(** X15: where the extracted frame comes from.  With enough fuel
    [extractLastFrame] finishes; when it updates the asset, the asset
    gets the duration of the video and a frame whose timestamp is at
    most [duration - 0.05], equals it for clips of at most 0.55 s and
    lies above 0.4 s for longer ones; the stored bytes are the encoding
    of the frame at that timestamp, and the other fields of the asset
    are kept.  When no update is sent the encoder yielded null. *)
Theorem extractLastFrame_timestamp
        (video : Prober.VideoHandle) (asset : Video.VideoAsset) :
  (forall t, Prober.wfImage (Prober.frameAt video t)) ->
  let start := (Prober.videoDuration video - (1 # 20))%Q in
  exists n : nat, forall fuel, (n < fuel)%nat ->
    match Video.extractLastFrame fuel video asset with
    | None => False
    | Some None => exists t, Prober.toBlob video (Prober.frameAt video t) = None
    | Some (Some updated) =>
        exists frame,
          Video.lastFrame updated = Some frame /\
          Video.duration updated = Prober.videoDuration video /\
          (Video.timestamp frame <= start)%Q /\
          ((start <= 1 # 2)%Q -> Video.timestamp frame = start) /\
          (((1 # 2) < start)%Q -> ((2 # 5) < Video.timestamp frame)%Q) /\
          Prober.toBlob video (Prober.frameAt video (Video.timestamp frame))
          = Some (Video.blob frame) /\
          Video.assetId updated = Video.assetId asset /\
          Video.file updated = Video.file asset /\
          Video.name updated = Video.name asset /\
          Video.url updated = Video.url asset
    end.
Proof.
  intros Hwf. cbv zeta.
  destruct (extract_search video Hwf) as (n & k & Hrun & Hle & Hshort & Hlong & _).
  cbv zeta in Hrun, Hle, Hshort, Hlong.
  exists n. intros fuel Hfuel. unfold Video.extractLastFrame.
  rewrite (Hrun fuel Hfuel). unfold Prober.accept.
  set (t := Prober.probeTime (Prober.videoDuration video - (1 # 20)) k) in *.
  destruct (Prober.toBlob video (Prober.frameAt video t)) as [png |] eqn:Hblob.
  - eexists. cbn [Video.lastFrame Video.duration Video.timestamp Video.blob
                  Video.assetId Video.file Video.name Video.url
                  Prober.frameBlob Prober.frameTime].
    repeat split; try reflexivity; assumption.
  - exists t. exact Hblob.
Qed.

Lemma extractLastFrame_timestamp_witness :
  exists n : nat,
    match Video.extractLastFrame (S n) fadeVideo emptyVideoAsset with
    | Some (Some updated) =>
        exists frame, Video.lastFrame updated = Some frame /\
                      ((2 # 5) < Video.timestamp frame)%Q
    | _ => False
    end.
Proof.
  destruct (extractLastFrame_timestamp fadeVideo emptyVideoAsset) as (n & Hn).
  - intros t. cbn. destruct (Qlt_le_dec (3 # 2) t); by_computation.
  - exists n. specialize (Hn (S n) (Nat.lt_succ_diag_r n)).
    destruct (Video.extractLastFrame (S n) fadeVideo emptyVideoAsset) as [[updated |] |].
    + destruct Hn as (frame & Hframe & _ & _ & _ & Hlong & _).
      exists frame. split; [exact Hframe |]. apply Hlong. by_computation.
    + destruct Hn as (t & Hnull). discriminate Hnull.
    + exact Hn.
Defined.

(** X16: a clip without any bright frame still yields a frame.  When
    every frame has all its colour values below 10, the clip is longer
    than 0.55 s and the encoder succeeds, the search backs up until the
    time is at most 0.5 s and the handler stores the frame found there:
    its timestamp lies in (0.4, 0.5] and its brightness is below 10. *)
Theorem extractLastFrame_dark_clip
        (video : Prober.VideoHandle) (asset : Video.VideoAsset) :
  (forall t, Prober.wfImage (Prober.frameAt video t)) ->
  (forall t, coloursWithin 0 9 (Prober.frameAt video t)) ->
  (forall data, Prober.toBlob video data <> None) ->
  ((11 # 20) < Prober.videoDuration video)%Q ->
  exists n : nat, forall fuel, (n < fuel)%nat ->
    exists updated frame avg,
      Video.extractLastFrame fuel video asset = Some (Some updated) /\
      Video.lastFrame updated = Some frame /\
      ((2 # 5) < Video.timestamp frame /\ Video.timestamp frame <= 1 # 2)%Q /\
      Prober.avgBrightness (Prober.frameAt video (Video.timestamp frame)) = Fin avg /\
      (avg < 10)%Q.
Proof.
  intros Hwf Hdark Henc Hdur.
  destruct (extract_search video Hwf)
    as (n & k & Hrun & _ & _ & Hlong & (avg & Havg & Hacc) & _).
  cbv zeta in Hrun, Hlong, Havg, Hacc.
  set (t := Prober.probeTime (Prober.videoDuration video - (1 # 20)) k) in *.
  destruct (avgBrightness_between 0 9 _ (Hwf t) (Hdark t)) as (avg' & Havg' & _ & Hhi).
  rewrite Havg in Havg'. injection Havg' as <-.
  change (inject_Z 9) with 9%Q in Hhi.
  exists n. intros fuel Hfuel. unfold Video.extractLastFrame.
  rewrite (Hrun fuel Hfuel). unfold Prober.accept.
  destruct (Prober.toBlob video (Prober.frameAt video t)) as [png |] eqn:Hblob;
    [| exfalso; exact (Henc _ Hblob)].
  eexists. eexists. exists avg.
  cbn [Video.lastFrame Video.timestamp Prober.frameTime].
  split; [reflexivity |]. split; [reflexivity |].
  cbn [Video.timestamp].
  split; [split; [apply Hlong; lra | destruct Hacc; lra] |].
  split; [exact Havg | lra].
Qed.

Lemma extractLastFrame_dark_clip_witness :
  exists (n : nat) (updated : Video.VideoAsset) (frame : Video.LastFrame),
    Video.extractLastFrame (S n) blackVideo emptyVideoAsset = Some (Some updated) /\
    Video.lastFrame updated = Some frame /\
    (Video.timestamp frame <= 1 # 2)%Q.
Proof.
  destruct (extractLastFrame_dark_clip blackVideo emptyVideoAsset) as (n & Hn).
  - intros t. by_computation.
  - intros t. cbn. lia.
  - intros data. discriminate.
  - by_computation.
  - destruct (Hn (S n) (Nat.lt_succ_diag_r n))
      as (updated & frame & avg & Hrun & Hframe & (_ & Hle) & _).
    exists n, updated, frame. split; [exact Hrun |]. split; [exact Hframe | exact Hle].
Defined.

(* ================================================================== *)
(** ** The preview of a segment against its export *)

Lemma floor_lower (x : Q) (n : Z) : (inject_Z n <= x)%Q -> n <= floor x.
Proof.
  intros H. unfold floor. rewrite <- (Qfloor_Z n). apply Qfloor_resp_le. exact H.
Qed.

Lemma floor_upper (x : Q) (n : Z) : (x < inject_Z n)%Q -> floor x < n.
Proof.
  intros H. destruct (floor_bounds x) as [Hle _].
  rewrite Zlt_Qlt. lra.
Qed.

Lemma floor_difference (s e : Q) :
  floor (e - s) <= floor e - floor s <= floor (e - s) + 1.
Proof.
  destruct (floor_bounds s) as [S1 S2].
  destruct (floor_bounds e) as [E1 E2].
  destruct (floor_bounds (e - s)) as [D1 D2].
  rewrite inject_Z_plus in S2, E2, D2. change (inject_Z 1) with 1%Q in *.
  assert (A : floor (e - s) + floor s <= floor e).
  { apply floor_lower. rewrite inject_Z_plus. lra. }
  assert (B : floor e < floor (e - s) + floor s + 2).
  { rewrite Zlt_Qlt. rewrite !inject_Z_plus. change (inject_Z 2) with 2%Q. lra. }
  lia.
Qed.



(* ================================================================== *)
(** ** The archive of all segments *)

Lemma string_of_uint_free (d : Decimal.uint) :
  freeOf "_"%char (DecimalString.NilEmpty.string_of_uint d).
Proof.
  induction d; cbn [DecimalString.NilEmpty.string_of_uint freeOf];
    try exact I; (split; [discriminate | assumption]).
Qed.

Lemma numberToString_free (z : Z) : freeOf "_"%char (numberToString z).
Proof.
  assert (U : forall d, freeOf "_"%char (DecimalString.NilZero.string_of_uint d)).
  { intros d. destruct d; try apply string_of_uint_free.
    cbn. split; [discriminate | exact I]. }
  unfold numberToString. destruct (Z.to_int z) as [d | d];
    cbn [DecimalString.NilZero.string_of_int]; [apply U |].
  cbn [freeOf]. split; [discriminate | apply U].
Qed.

Lemma numberToString_inj (a b : Z) : numberToString a = numberToString b -> a = b.
Proof.
  assert (N : forall z, DecimalString.NilZero.int_of_string (numberToString z)
                        = Some (Z.to_int z)).
  { intros z. unfold numberToString. apply DecimalString.NilZero.isi.
    - destruct z as [| p | p]; cbn; try discriminate.
      intros E. injection E as E. exact (DecimalPos.Unsigned.to_uint_nonnil p E).
    - destruct z as [| p | p]; cbn; try discriminate.
      intros E. injection E as E. exact (DecimalPos.Unsigned.to_uint_nonnil p E). }
  intros E. apply DecimalZ.to_int_inj.
  pose proof (N a) as Na. rewrite E, (N b) in Na. injection Na as Na. symmetry. exact Na.
Qed.

Lemma append_prefix_inj (p a b : string) : (p ++ a = p ++ b)%string -> a = b.
Proof.
  induction p as [| c p IH]; cbn [String.append]; intros E; [exact E |].
  injection E as E. exact (IH E).
Qed.

Lemma append_free_split (c : ascii) (a1 : string) :
  forall a2 r1 r2,
    freeOf c a1 -> freeOf c a2 ->
    (a1 ++ String c r1 = a2 ++ String c r2)%string -> a1 = a2.
Proof.
  induction a1 as [| x a1 IH]; intros [| y a2] r1 r2 F1 F2 E;
    cbn [String.append] in E.
  - reflexivity.
  - injection E as Ec _. destruct F2 as [Hy _]. congruence.
  - injection E as Ec _. destruct F1 as [Hx _]. congruence.
  - injection E as Ec E. destruct F1 as [_ F1]. destruct F2 as [_ F2].
    f_equal; [exact Ec | exact (IH a2 r1 r2 F1 F2 E)].
Qed.

Lemma entryName_index (i j : nat) (s s' : Segment) :
  entryName i s = entryName j s' -> i = j.
Proof.
  unfold entryName. intros E. apply append_prefix_inj in E.
  cbn [String.append] in E.
  apply append_free_split in E; try apply numberToString_free.
  apply numberToString_inj in E. lia.
Qed.

Lemma file_fresh (zip : Zip.archive) (name : string) (data : list Z) :
  ~ In name (map fst zip) -> Zip.file zip name data = zip ++ [(name, data)].
Proof.
  induction zip as [| [n d] rest IH]; intros Hfresh; [reflexivity |].
  cbn [Zip.file]. destruct (String.eqb n name) eqn:E.
  - apply String.eqb_eq in E. exfalso. apply Hfresh. left. exact E.
  - cbn [app]. f_equal. apply IH. intros Hin. apply Hfresh. right. exact Hin.
Qed.

Lemma expectedEntries_names (segs : list Segment) :
  forall (k : nat) (nm : string),
    In nm (map fst (expectedEntries k segs)) ->
    exists j s, (k <= j)%nat /\ nm = entryName j s.
Proof.
  induction segs as [| seg rest IH]; intros k nm Hin; [destruct Hin |].
  unfold expectedEntries in Hin. cbn [List.length seq combine map fst snd] in Hin.
  destruct Hin as [<- | Hin].
  - exists k, seg. split; [lia | reflexivity].
  - destruct (IH (S k) nm Hin) as (j & s & Hj & ->).
    exists j, s. split; [lia | reflexivity].
Qed.

Lemma zipSegments_fresh (segs : list Segment) :
  forall (zip : Zip.archive) (i : nat),
    (forall nm, In nm (map fst zip) -> exists j s, (j < i)%nat /\ nm = entryName j s) ->
    zipSegments zip i segs = zip ++ expectedEntries i segs.
Proof.
  induction segs as [| seg rest IH]; intros zip i Hold.
  - cbn. symmetry. apply app_nil_r.
  - cbn [zipSegments]. rewrite file_fresh.
    + rewrite IH.
      * rewrite <- app_assoc. reflexivity.
      * intros nm Hin. rewrite map_app in Hin. apply in_app_or in Hin.
        destruct Hin as [Hin | [<- | []]].
        -- destruct (Hold nm Hin) as (j & s & Hj & ->).
           exists j, s. split; [lia | reflexivity].
        -- exists i, seg. split; [lia | reflexivity].
    + intros Hin. destruct (Hold _ Hin) as (j & s & Hj & E).
      apply entryName_index in E. lia.
Qed.

Lemma expectedEntries_NoDup (segs : list Segment) :
  forall k, NoDup (map fst (expectedEntries k segs)).
Proof.
  induction segs as [| seg rest IH]; intros k; [constructor |].
  unfold expectedEntries. cbn [List.length seq combine map fst snd].
  constructor; [| apply IH].
  intros Hin. destruct (expectedEntries_names rest (S k) _ Hin) as (j & s & Hj & E).
  apply entryName_index in E. lia.
Qed.


(* ================================================================== *)
(** ** The application state *)

Lemma runFrom_invariant (P : App.AppState -> Z -> Prop) :
  (forall e s c, P s c -> P (App.apply e s) (App.stepEffect c (App.apply e s))) ->
  forall events s c,
    P s c -> P (fst (App.runFrom s c events)) (snd (App.runFrom s c events)).
Proof.
  intros Hstep events. induction events as [| e rest IH]; intros s c HP.
  - exact HP.
  - cbn [App.runFrom]. apply IH. apply Hstep. exact HP.
Qed.




